(** * EKF localization with known correspondences

    A shallow embedding of [src/EKF_localization.cpp] (class
    [EKF_localization]) together with the constants of [src/config.h].

    Numbers.  The program computes on C++ [double]s.  The embedding reads a
    finite [double] as the real number it denotes and the operations
    [+ - * sin cos fabs pow(.,2)] as the exact real operations: [M_PI] is
    [PI], [1e-4] is [1/10000], [0.1] is [1/10].  Rounding and overflow are
    not modelled.  What IS modelled is the one way in which this program can
    leave the finite numbers in exact arithmetic, a division by zero: IEEE
    division by zero gives an infinity or a NaN, and every sum and product
    computed from such a value is again an infinity or a NaN; likewise the
    square root of a negative number is a NaN.  That outcome is the
    constructor [NonFinite] of the type [fp] below.

    Real numbers do not compute: where the development evaluates the
    program on a concrete input, it does so by rewriting.

    Matrices.  The program uses Eigen's fixed-size matrices
    ([Matrix<double, 3, 2>] and the like).  They are modelled as tuples of
    rows, the sizes being part of the type. *)

From Stdlib Require Import Reals Lra Lia List Arith.
Import ListNotations.

Open Scope R_scope.

(** ** Fixed-size vectors and matrices *)

Module Mat.

Fixpoint tup (A : Type) (n : nat) : Type :=
  match n with
  | O => unit
  | S k => (A * tup A k)%type
  end.

Fixpoint tget {A : Type} (d : A) {n : nat} : tup A n -> nat -> A :=
  match n with
  | O => fun _ _ => d
  | S k => fun t i =>
      match i with
      | O => fst t
      | S j => tget d (snd t) j
      end
  end.

Fixpoint tset {A : Type} {n : nat} : tup A n -> nat -> A -> tup A n :=
  match n with
  | O => fun t _ _ => t
  | S k => fun t i a =>
      match i with
      | O => (a, snd t)
      | S j => (fst t, tset (snd t) j a)
      end
  end.

Fixpoint tmap {A B : Type} (f : A -> B) {n : nat} : tup A n -> tup B n :=
  match n with
  | O => fun _ => tt
  | S k => fun t => (f (fst t), tmap f (snd t))
  end.

Fixpoint tzip {A B C : Type} (f : A -> B -> C) {n : nat}
  : tup A n -> tup B n -> tup C n :=
  match n with
  | O => fun _ _ => tt
  | S k => fun s t => (f (fst s) (fst t), tzip f (snd s) (snd t))
  end.

Fixpoint tinit {A : Type} (f : nat -> A) (from n : nat) : tup A n :=
  match n with
  | O => tt
  | S k => (f from, tinit f (S from) k)
  end.

Fixpoint tsum {n : nat} : tup R n -> R :=
  match n with
  | O => fun _ => 0
  | S k => fun t => fst t + tsum (snd t)
  end.

(** [Matrix<double, n, 1>] and [Matrix<double, m, n>]. *)
Definition Vec (n : nat) : Type := tup R n.
Definition Matrix (m n : nat) : Type := tup (tup R n) m.

(** [A(i, j)], [A(i, j) = a], [v(i)] and [v(i) = a]. *)
Definition mget {m n : nat} (A : Matrix m n) (i j : nat) : R :=
  tget 0 (tget (tinit (fun _ => 0) O n) A i) j.

Definition mset {m n : nat} (A : Matrix m n) (i j : nat) (a : R) : Matrix m n :=
  tset A i (tset (tget (tinit (fun _ => 0) O n) A i) j a).

Definition vget {n : nat} (v : Vec n) (i : nat) : R := tget 0 v i.
Definition vset {n : nat} (v : Vec n) (i : nat) (a : R) : Vec n := tset v i a.

(** [setZero()] and [setIdentity()]. *)
Definition zero (m n : nat) : Matrix m n :=
  tinit (fun _ => tinit (fun _ => 0) O n) O m.

Definition identity (n : nat) : Matrix n n :=
  tinit (fun i => tinit (fun j => if Nat.eqb i j then 1 else 0) O n) O n.

Definition dot {n : nat} (u v : Vec n) : R := tsum (tzip Rmult u v).

Definition col {m n : nat} (A : Matrix m n) (j : nat) : Vec m :=
  tmap (fun row => tget 0 row j) A.

Definition transpose {m n : nat} (A : Matrix m n) : Matrix n m :=
  tinit (fun j => col A j) O n.

Definition mmul {m k n : nat} (A : Matrix m k) (B : Matrix k n) : Matrix m n :=
  tmap (fun row => tmap (fun c => dot row c) (transpose B)) A.

Definition mvmul {m n : nat} (A : Matrix m n) (v : Vec n) : Vec m :=
  tmap (fun row => dot row v) A.

Definition madd {m n : nat} (A B : Matrix m n) : Matrix m n :=
  tzip (tzip Rplus) A B.

Definition msub {m n : nat} (A B : Matrix m n) : Matrix m n :=
  tzip (tzip Rminus) A B.

Definition vadd {n : nat} (u v : Vec n) : Vec n := tzip Rplus u v.
Definition vsub {n : nat} (u v : Vec n) : Vec n := tzip Rminus u v.

Definition trace {n : nat} (A : Matrix n n) : R :=
  tsum (tinit (fun i => mget A i i) O n).

End Mat.

Import Mat.

Declare Scope mat_scope.
Delimit Scope mat_scope with mat.
Notation "A *m B" := (mmul A B) (at level 40, left associativity) : mat_scope.
Notation "A *v u" := (mvmul A u) (at level 40, left associativity) : mat_scope.
Notation "A +m B" := (madd A B) (at level 50, left associativity) : mat_scope.
Notation "A -m B" := (msub A B) (at level 50, left associativity) : mat_scope.
Notation "u +v w" := (vadd u w) (at level 50, left associativity) : mat_scope.
Notation "u -v w" := (vsub u w) (at level 50, left associativity) : mat_scope.
Open Scope mat_scope.

(** ** config.h *)

Definition ALPHA1 : R := 1 / 10.
Definition ALPHA2 : R := 0.
Definition ALPHA3 : R := 1 / 10000.
Definition ALPHA4 : R := 1 / 10.

Definition ROBOT_VEL : R := 100.
Definition ROBOT_YAW_VEL : R := 60 * PI / 180.

Definition DETECTION_RANGE_ALPHA : R := 1 / 10.
Definition DETECTION_ANGLE_SIGMA : R := 2 * PI / 180.

(** [const double EPS = 1e-4] of [update]. *)
Definition EPS : R := 1 / 10000.

(** [pow(x, 2)]. *)
Definition pow2 (x : R) : R := x * x.

(** ** Values that may have left the finite numbers *)

(** The result of a computation on [double]s: a finite value, or
    [NonFinite] when a division by zero or the square root of a negative
    number has put an infinity or a NaN into it.  [NonFinite] is absorbing:
    the program has no operation that turns an infinity or a NaN back into a
    finite number. *)
Inductive fp (A : Type) : Type :=
| Finite (a : A)
| NonFinite.

Arguments Finite {A} a.
Arguments NonFinite {A}.

Definition bind {A B : Type} (c : fp A) (k : A -> fp B) : fp B :=
  match c with
  | Finite a => k a
  | NonFinite => NonFinite
  end.

Notation "x <- c ;; k" := (bind c (fun x => k))
  (at level 61, c at next level, right associativity).

(** [a / b] where the program does not know that [b] is not zero. *)
Definition fdiv (a b : R) : fp R :=
  if Req_dec_T b 0 then NonFinite else Finite (a / b).

Infix "//" := fdiv (at level 40, left associativity).

(** [sqrt(a)] where the program does not know that [a] is not negative. *)
Definition fsqrt (a : R) : fp R :=
  if Rlt_dec a 0 then NonFinite else Finite (sqrt a).

(** ** The filter *)

Definition vec2 (a b : R) : Vec 2 := (a, (b, tt)).
Definition vec3 (a b c : R) : Vec 3 := (a, (b, (c, tt))).

(** [struct Landmark]: the known position of the landmark and the robot's
    observation of it.  (The colour fields play no role in the filter.) *)
Module Landmark.
Record t : Type := mk {
  x : R;
  y : R;
  range : R;
  bearing : R
}.
End Landmark.

Abbreviation Landmark := Landmark.t.

(** The data members of [class EKF_localization]. *)
Record EKF_localization : Type := mkEKF {
  m_mu : Vec 3;
  m_cov : Matrix 3 3;
  m_dt : R
}.

(** Modelled from the spec: the accessor [yaw()] is declared in
    [EKF_localization.h], which is not among the sources; it reads the
    heading component of the mean. *)
Definition yaw (s : EKF_localization) : R := vget (m_mu s) 2.

Definition init_ekf (s : EKF_localization) : EKF_localization :=
  mkEKF (m_mu s) (zero 3 3) (m_dt s).

Definition set_state (x0 y0 yaw0 : R) (s : EKF_localization) : EKF_localization :=
  mkEKF (vset (vset (vset (m_mu s) 0 x0) 1 y0) 2 yaw0) (m_cov s) (m_dt s).

Definition constrain_angle (radian : R) : R :=
  if Rlt_dec radian (- PI) then radian + 2 * PI
  else if Rgt_dec radian PI then radian - 2 * PI
  else radian.

(** The local variables of [update] that live across the iterations of the
    landmark loop.  [Z], [ZHAT], [S] and [K] are assigned as a whole before
    they are read in an iteration, so they carry nothing from one iteration
    to the next; [H] and [Q] are written entry by entry. *)
Record Locals : Type := mkLocals {
  MU : Vec 3;
  COV : Matrix 3 3;
  H : Matrix 2 3;
  Q : Matrix 2 2
}.

(** The body of [update] up to the landmark loop: the declarations, the
    motion noise and the prediction.  The divisions by [w] stand in the
    branch [fabs(w) > EPS], where [w] is not zero. *)
Definition predict (v w dt : R) (s : EKF_localization) : Locals :=
  let G := identity 3 in
  let V := zero 3 2 in
  let M := zero 2 2 in
  let Q := zero 2 2 in
  let H := zero 2 3 in
  let theta := yaw s in
  let M := mset M 0 0 (pow2 (ALPHA1 * Rabs v + ALPHA2 * Rabs w)) in
  let M := mset M 1 1 (pow2 (ALPHA3 * Rabs v + ALPHA4 * Rabs w)) in
  if Rgt_dec (Rabs w) EPS then
    let G := mset G 0 2 (- (v / w) * cos theta + (v / w) * cos (theta + w * dt)) in
    let G := mset G 1 2 (- (v / w) * sin theta + (v / w) * sin (theta + w * dt)) in
    let V := mset V 0 0 ((- sin theta + sin (theta + w * dt)) / w) in
    let V := mset V 1 0 ((cos theta - cos (theta + w * dt)) / w) in
    let V := mset V 0 1 (v * (sin theta - sin (theta + w * dt)) / (w * w)
                         + v * cos (theta + w * dt) * dt / w) in
    let V := mset V 1 1 (- v * (cos theta - cos (theta + w * dt)) / (w * w)
                         + v * sin (theta + w * dt) * dt / w) in
    let V := mset V 2 0 0 in
    let V := mset V 2 1 dt in
    let MU := vec3 (vget (m_mu s) 0 - (v / w) * sin theta + (v / w) * sin (theta + w * dt))
                   (vget (m_mu s) 1 + (v / w) * cos theta - (v / w) * cos (theta + w * dt))
                   (vget (m_mu s) 2 + w * dt) in
    let COV := G *m m_cov s *m transpose G +m V *m M *m transpose V in
    mkLocals MU COV H Q
  else
    let G := mset G 0 2 (- v * sin theta * dt) in
    let G := mset G 1 2 (v * cos theta * dt) in
    let V := mset V 0 0 (cos theta * dt) in
    let V := mset V 1 0 (sin theta * dt) in
    let V := mset V 0 1 (- v * sin theta * dt * dt * (1 / 2)) in
    let V := mset V 1 1 (v * cos theta * dt * dt * (1 / 2)) in
    let V := mset V 2 0 0 in
    let V := mset V 2 1 dt in
    let MU := vec3 (vget (m_mu s) 0 + v * cos theta * dt)
                   (vget (m_mu s) 1 + v * sin theta * dt)
                   (vget (m_mu s) 2) in
    let COV := G *m m_cov s *m transpose G +m V *m M *m transpose V in
    mkLocals MU COV H Q.

(** Eigen's [inverse()] of a fixed-size 2x2 matrix: the cofactor formula,
    every entry multiplied by [1 / determinant]. *)
Definition det2 (A : Matrix 2 2) : R :=
  mget A 0 0 * mget A 1 1 - mget A 1 0 * mget A 0 1.

Definition inverse2 (A : Matrix 2 2) : fp (Matrix 2 2) :=
  invdet <- 1 // det2 A ;;
  Finite ((mget A 1 1 * invdet, (- mget A 0 1 * invdet, tt)),
          ((- mget A 1 0 * invdet, (mget A 0 0 * invdet, tt)), tt)).

Section Update.

(** [Robot::landmark_range_bearing(l, x, y, yaw, range, bearing)] belongs to
    the robot model, outside the filter: it gives the range and the bearing
    expected for landmark [l] from the pose [(x, y, yaw)]. *)
Variable landmark_range_bearing : Landmark -> R -> R -> R -> R * R.

(** One iteration of the loop [for (const auto &l : landmarks)]. *)
Definition correct (l : Landmark) (st : Locals) : fp Locals :=
  let Z := vec2 (Landmark.range l) (Landmark.bearing l) in
  if Rgt_dec (Rabs (Landmark.range l)) EPS then
    let MU := MU st in
    let COV := COV st in
    let H := H st in
    let Q := Q st in
    let '(range, bearing) :=
      landmark_range_bearing l (vget MU 0) (vget MU 1) (vget MU 2) in
    let ZHAT := vec2 range bearing in
    h00 <- (- (Landmark.x l - vget MU 0)) // range ;;
    h01 <- (- (Landmark.y l - vget MU 1)) // range ;;
    h10 <- (Landmark.y l - vget MU 1) // (range * range) ;;
    h11 <- (- (Landmark.x l - vget MU 0)) // (range * range) ;;
    let H := mset H 0 0 h00 in
    let H := mset H 0 1 h01 in
    let H := mset H 0 2 0 in
    let H := mset H 1 0 h10 in
    let H := mset H 1 1 h11 in
    let H := mset H 1 2 (-1) in
    let Q := mset Q 0 0 (pow2 (Landmark.range l * DETECTION_RANGE_ALPHA)) in
    let Q := mset Q 1 1 (pow2 DETECTION_ANGLE_SIGMA) in
    let S := H *m COV *m transpose H +m Q in
    Sinv <- inverse2 S ;;
    let K := COV *m transpose H *m Sinv in
    let MU := MU +v K *v (Z -v ZHAT) in
    let COV := (identity 3 -m K *m H) *m COV in
    let MU := vset MU 2 (constrain_angle (vget MU 2)) in
    Finite (mkLocals MU COV H Q)
  else
    Finite st.

Fixpoint correction (landmarks : list Landmark) (st : Locals) : fp Locals :=
  match landmarks with
  | [] => Finite st
  | l :: rest => st' <- correct l st ;; correction rest st'
  end.

Definition update (v w : R) (landmarks : list Landmark) (dt : R)
    (s : EKF_localization) : fp EKF_localization :=
  st <- correction landmarks (predict v w dt s) ;;
  Finite (mkEKF (MU st) (COV st) dt).

End Update.

(** [atan2(y, x)] of the C library: the angle of the point (x, y), in
    [-pi, pi]. *)
Definition atan2 (y x : R) : R :=
  if Rlt_dec 0 x then atan (y / x)
  else if Rlt_dec x 0 then
    if Rle_dec 0 y then atan (y / x) + PI else atan (y / x) - PI
  else if Rlt_dec 0 y then PI / 2
  else if Rlt_dec y 0 then - (PI / 2)
  else 0.

(** What the program reads from Eigen's [SelfAdjointEigenSolver<Matrix2d>]:
    [eigenvalues()] and [eigenvectors()], the eigenvectors being the columns
    of the matrix. *)
Record SelfAdjointEigenSolver : Type := mkSolver {
  eigenvalues : Vec 2;
  eigenvectors : Matrix 2 2
}.

Section Ellipse.

(** The construction [SelfAdjointEigenSolver<Matrix2d> a(X)], which belongs
    to Eigen. *)
Variable solve : Matrix 2 2 -> SelfAdjointEigenSolver.

(** The results are [(major, minor, theta)]; [NonFinite] when one of the
    two axes is not a number ([ellipse_components] below keeps the three
    results apart in that case). *)
Definition ellipse (X : Matrix 2 2) : fp (R * R * R) :=
  let a := solve X in
  e0 <- fsqrt (vget (eigenvalues a) 0) ;;
  e1 <- fsqrt (vget (eigenvalues a) 1) ;;
  if Rgt_dec e0 e1 then
    let theta := atan2 (mget (eigenvectors a) 1 0) (mget (eigenvectors a) 0 0) in
    Finite (e0, e1, theta)
  else
    let theta := atan2 (mget (eigenvectors a) 1 1) (mget (eigenvectors a) 0 1) in
    Finite (e1, e0, theta).

(** [m_cov.block(0, 0, 2, 2)]. *)
Definition block_0_0_2_2 (A : Matrix 3 3) : Matrix 2 2 :=
  ((mget A 0 0, (mget A 0 1, tt)), ((mget A 1 0, (mget A 1 1, tt)), tt)).

Definition pose_ellipse (s : EKF_localization) : fp (R * R * R) :=
  ellipse (block_0_0_2_2 (m_cov s)).

End Ellipse.

(** Modelled from the spec: [Robot::landmark_range_bearing] is defined in
    the robot model, which is not among the sources.  The spec asks for the
    true range and bearing from the pose to the landmark, by exact
    trigonometry and without noise. *)
Definition Robot_landmark_range_bearing (l : Landmark) (x y yaw : R) : R * R :=
  let dx := Landmark.x l - x in
  let dy := Landmark.y l - y in
  (sqrt (dx * dx + dy * dy), atan2 dy dx - yaw).

(** ** Specification vocabulary *)

(** Two angles that differ by a whole number of turns. *)
Definition congruent_2pi (a b : R) : Prop :=
  exists k : Z, a = b + IZR k * (2 * PI).

(** The half-open interval (-pi, pi] of the spec, and the closed interval
    that [constrain_angle] maps into. *)
Definition wrapped (a : R) : Prop := - PI < a <= PI.
Definition wrapped_closed (a : R) : Prop := - PI <= a <= PI.

(** [J] is the matrix of the partial derivatives of [F] at [p]. *)
Definition is_jacobian {m n : nat} (F : Vec n -> Vec m) (p : Vec n)
    (J : Matrix m n) : Prop :=
  forall i j : nat, (i < m)%nat -> (j < n)%nat ->
    derivable_pt_lim (fun t => vget (F (vset p j t)) i) (vget p j) (mget J i j).

Definition diag2 (a b : R) : Matrix 2 2 := ((a, (0, tt)), ((0, (b, tt)), tt)).

(** The process noise in control space. *)
Definition motion_noise (v w : R) : Matrix 2 2 :=
  diag2 (pow2 (ALPHA1 * Rabs v + ALPHA2 * Rabs w))
        (pow2 (ALPHA3 * Rabs v + ALPHA4 * Rabs w)).

(** The circular-arc velocity motion model: the pose reached from the pose
    [p] after the time [dt] under the control [u] = (v, w). *)
Definition arc_motion (dt : R) (u : Vec 2) (p : Vec 3) : Vec 3 :=
  let v := vget u 0 in
  let w := vget u 1 in
  let theta := vget p 2 in
  vec3 (vget p 0 - (v / w) * sin theta + (v / w) * sin (theta + w * dt))
       (vget p 1 + (v / w) * cos theta - (v / w) * cos (theta + w * dt))
       (theta + w * dt).

Definition arc_G (v w dt theta : R) : Matrix 3 3 :=
  ((1, (0, (- (v / w) * cos theta + (v / w) * cos (theta + w * dt), tt))),
  ((0, (1, (- (v / w) * sin theta + (v / w) * sin (theta + w * dt), tt))),
  ((0, (0, (1, tt))), tt))).

Definition arc_V (v w dt theta : R) : Matrix 3 2 :=
  (((- sin theta + sin (theta + w * dt)) / w,
    (v * (sin theta - sin (theta + w * dt)) / (w * w)
     + v * cos (theta + w * dt) * dt / w, tt)),
  (((cos theta - cos (theta + w * dt)) / w,
    (- v * (cos theta - cos (theta + w * dt)) / (w * w)
     + v * sin (theta + w * dt) * dt / w, tt)),
  ((0, (dt, tt)), tt))).

(** The straight-line limit of the motion model for [w] going to 0. *)
Definition line_motion (dt : R) (u : Vec 2) (p : Vec 3) : Vec 3 :=
  let v := vget u 0 in
  let theta := vget p 2 in
  vec3 (vget p 0 + v * cos theta * dt)
       (vget p 1 + v * sin theta * dt)
       theta.

Definition line_G (v dt theta : R) : Matrix 3 3 :=
  ((1, (0, (- v * sin theta * dt, tt))),
  ((0, (1, (v * cos theta * dt, tt))),
  ((0, (0, (1, tt))), tt))).

Definition line_V (v dt theta : R) : Matrix 3 2 :=
  ((cos theta * dt, (- v * sin theta * dt * dt * (1 / 2), tt)),
  ((sin theta * dt, (v * cos theta * dt * dt * (1 / 2), tt)),
  ((0, (dt, tt)), tt))).

(** [f w] tends to [l] when [w] tends to 0, [w] not being 0. *)
Definition tends_to_at_0 (f : R -> R) (l : R) : Prop :=
  forall eps : R, 0 < eps ->
    exists delta : R, 0 < delta /\
      forall w : R, w <> 0 -> Rabs w < delta -> Rabs (f w - l) < eps.

(** The propagation of the covariance through a linearized motion. *)
Definition propagate (G : Matrix 3 3) (V : Matrix 3 2) (M : Matrix 2 2)
    (Sigma : Matrix 3 3) : Matrix 3 3 :=
  G *m Sigma *m transpose G +m V *m M *m transpose V.

(** The measurement Jacobian at the mean [mu], for the expected range [r]. *)
Definition measurement_jacobian (l : Landmark) (mu : Vec 3) (r : R) : Matrix 2 3 :=
  ((- (Landmark.x l - vget mu 0) / r,
    (- (Landmark.y l - vget mu 1) / r, (0, tt))),
  (((Landmark.y l - vget mu 1) / (r * r),
    (- (Landmark.x l - vget mu 0) / (r * r), (-1, tt))), tt)).

(** The measurement noise: the range variance follows the observed range. *)
Definition measurement_noise (l : Landmark) : Matrix 2 2 :=
  diag2 (pow2 (Landmark.range l * DETECTION_RANGE_ALPHA))
        (pow2 DETECTION_ANGLE_SIGMA).

Definition innovation_covariance (H : Matrix 2 3) (Sigma : Matrix 3 3)
    (Q : Matrix 2 2) : Matrix 2 2 :=
  H *m Sigma *m transpose H +m Q.

Definition is_inverse2 (A B : Matrix 2 2) : Prop :=
  A *m B = identity 2 /\ B *m A = identity 2.

Definition kalman_gain (H : Matrix 2 3) (Sigma : Matrix 3 3)
    (Sinv : Matrix 2 2) : Matrix 3 2 :=
  Sigma *m transpose H *m Sinv.

Definition wrap_heading (mu : Vec 3) : Vec 3 :=
  vset mu 2 (constrain_angle (vget mu 2)).

(** The off-diagonal entries of [Q] are written by [setZero()] only. *)
Definition Q_offdiag_zero (st : Locals) : Prop :=
  mget (Q st) 0 1 = 0 /\ mget (Q st) 1 0 = 0.

(** What one fusion makes of the mean and the covariance, given the
    inverse [Sinv] of the innovation covariance. *)
Definition fusion (lrb : Landmark -> R -> R -> R -> R * R) (l : Landmark)
    (mu : Vec 3) (Sigma : Matrix 3 3) (Sinv : Matrix 2 2)
  : Vec 3 * Matrix 3 3 :=
  let zhat := lrb l (vget mu 0) (vget mu 1) (vget mu 2) in
  let z := vec2 (Landmark.range l) (Landmark.bearing l) in
  let H := measurement_jacobian l mu (fst zhat) in
  let K := kalman_gain H Sigma Sinv in
  (wrap_heading (mu +v K *v (z -v vec2 (fst zhat) (snd zhat))),
   (identity 3 -m K *m H) *m Sigma).

(** The expected measurement and the innovation covariance at the loop
    state [st]. *)
Definition expected (lrb : Landmark -> R -> R -> R -> R * R) (l : Landmark)
    (st : Locals) : R * R :=
  lrb l (vget (MU st) 0) (vget (MU st) 1) (vget (MU st) 2).

Definition S_at (lrb : Landmark -> R -> R -> R -> R * R) (l : Landmark)
    (st : Locals) : Matrix 2 2 :=
  innovation_covariance
    (measurement_jacobian l (MU st) (fst (expected lrb l st)))
    (COV st) (measurement_noise l).

(** Symmetric and positive semi-definite covariances. *)
Definition symmetric3 (Sigma : Matrix 3 3) : Prop := transpose Sigma = Sigma.

Definition psd3 (Sigma : Matrix 3 3) : Prop :=
  forall u : Vec 3, 0 <= dot u (Sigma *v u).

(** *** Eigenvalues and eigenvectors of a 2x2 matrix *)

Definition symmetric2 (X : Matrix 2 2) : Prop := mget X 0 1 = mget X 1 0.

(** Positive semi-definite: no direction has a negative variance. *)
Definition psd2 (X : Matrix 2 2) : Prop :=
  forall u : Vec 2, 0 <= dot u (X *v u).

Definition scale {n : nat} (c : R) (u : Vec n) : Vec n := tmap (Rmult c) u.

Definition is_unit_eigenvector (X : Matrix 2 2) (lambda : R) (u : Vec 2) : Prop :=
  dot u u = 1 /\ X *v u = scale lambda u.

(** The roots of the characteristic polynomial. *)
Definition is_eigenvalue (X : Matrix 2 2) (lambda : R) : Prop :=
  (mget X 0 0 - lambda) * (mget X 1 1 - lambda) - mget X 1 0 * mget X 0 1 = 0.

(** The two eigenvalues of a symmetric matrix, in closed form. *)
Definition eigen_radius (X : Matrix 2 2) : R :=
  sqrt (pow2 ((mget X 0 0 - mget X 1 1) / 2) + pow2 (mget X 1 0)).

Definition eigenvalue_min (X : Matrix 2 2) : R :=
  (mget X 0 0 + mget X 1 1) / 2 - eigen_radius X.

Definition eigenvalue_max (X : Matrix 2 2) : R :=
  (mget X 0 0 + mget X 1 1) / 2 + eigen_radius X.

(** What Eigen documents of [SelfAdjointEigenSolver]: the eigenvalues are
    sorted in increasing order, and the columns of [eigenvectors()] are
    orthonormal eigenvectors, in the order of the eigenvalues. *)
Definition eigen_decomposition (X : Matrix 2 2) (a : SelfAdjointEigenSolver) : Prop :=
  vget (eigenvalues a) 0 <= vget (eigenvalues a) 1 /\
  is_unit_eigenvector X (vget (eigenvalues a) 0) (col (eigenvectors a) 0) /\
  is_unit_eigenvector X (vget (eigenvalues a) 1) (col (eigenvectors a) 1) /\
  dot (col (eigenvectors a) 0) (col (eigenvectors a) 1) = 0.

Definition exchange2 : Matrix 2 2 := ((0, (1, tt)), ((1, (0, tt)), tt)).

(** What Eigen's iteration does on a matrix that is diagonal already: no
    rotation; the eigenvectors are the columns of the identity, exchanged
    when the sort into increasing order exchanges the eigenvalues. *)
Definition keeps_diagonal_basis (solve : Matrix 2 2 -> SelfAdjointEigenSolver) : Prop :=
  forall a d : R,
    eigenvectors (solve (diag2 a d)) =
    if Rle_dec a d then identity 2 else exchange2.

(** The unit vector at the angle [theta]. *)
Definition direction (theta : R) : Vec 2 := vec2 (cos theta) (sin theta).

(** A solver in closed form that meets both descriptions; it is the solver
    of the examples. *)
Definition closed_form_solver (X : Matrix 2 2) : SelfAdjointEigenSolver :=
  let a := mget X 0 0 in
  let b := mget X 1 0 in
  let d := mget X 1 1 in
  if Req_dec_T b 0 then
    if Rle_dec a d then mkSolver (vec2 a d) (identity 2)
    else mkSolver (vec2 d a) exchange2
  else
    let l0 := eigenvalue_min X in
    let l1 := eigenvalue_max X in
    let n0 := sqrt (b * b + (l0 - a) * (l0 - a)) in
    let n1 := sqrt (b * b + (l1 - a) * (l1 - a)) in
    mkSolver (vec2 l0 l1)
             ((b / n0, (b / n1, tt)), (((l0 - a) / n0, ((l1 - a) / n1, tt)), tt)).

(** ** Concrete inputs *)

(** The filter at the origin, heading along the x axis, with no
    uncertainty, and the loop state that a prediction with v = w = 0
    makes of it. *)
Definition origin : EKF_localization := mkEKF (vec3 0 0 0) (zero 3 3) 0.

Definition at_origin : Locals :=
  mkLocals (vec3 0 0 0) (zero 3 3) (zero 2 3) (zero 2 2).

(** A landmark one unit ahead of the origin, observed where it is; the same
    landmark observed at range 0; and observed at range -1. *)
Definition ahead : Landmark := Landmark.mk 1 0 1 0.
Definition ahead_range_0 : Landmark := Landmark.mk 1 0 0 0.
Definition ahead_negative : Landmark := Landmark.mk 1 0 (-1) 0.

(** A filter set to the heading of 3 radians after its initialization. *)
Definition heading_3 : EKF_localization := set_state 0 0 3 (init_ekf origin).

(** ** Vocabulary of the further properties *)

(** A covariance as it should be: symmetric and positive semi-definite. *)
Definition covariance_ok (Sigma : Matrix 3 3) : Prop :=
  symmetric3 Sigma /\ psd3 Sigma.

(** The pose moved by the vector (a, b), the heading kept. *)
Definition translate (a b : R) (p : Vec 3) : Vec 3 :=
  vec3 (vget p 0 + a) (vget p 1 + b) (vget p 2).

(** The inputs of one call of [update], and a run of calls, each on the
    state that the call before it has stored. *)
Record Input : Type := mkInput {
  in_v : R;
  in_w : R;
  in_landmarks : list Landmark;
  in_dt : R
}.

Fixpoint updates (lrb : Landmark -> R -> R -> R -> R * R) (inputs : list Input)
    (s : EKF_localization) : fp EKF_localization :=
  match inputs with
  | [] => Finite s
  | i :: rest =>
      s' <- update lrb (in_v i) (in_w i) (in_landmarks i) (in_dt i) s ;;
      updates lrb rest s'
  end.

(** A landmark observed at exactly the threshold range. *)
Definition ahead_at_EPS : Landmark := Landmark.mk 1 0 EPS 0.

(** The unit vector of the axis [i]. *)
Definition basis3 (i : nat) : Vec 3 :=
  vec3 (if Nat.eqb i 0 then 1 else 0) (if Nat.eqb i 1 then 1 else 0)
       (if Nat.eqb i 2 then 1 else 0).

(** A solver that gives the larger eigenvalue first, and a matrix with a
    negative eigenvalue. *)
Definition decreasing_solver (X : Matrix 2 2) : SelfAdjointEigenSolver :=
  mkSolver (vec2 4 1) (identity 2).

Definition indefinite2 : Matrix 2 2 := diag2 1 (-1).

(** The filter set on the landmark [ahead] after its initialization. *)
Definition on_landmark : EKF_localization := set_state 1 0 0 (init_ekf origin).

(** ** ellipse, result by result

    [ellipse] once more, with each of the three results on its own: the
    square root of a negative eigenvalue is a NaN, a comparison with a NaN
    is false, and the results that do not depend on it are numbers. *)

(** [a > b] on values that may be NaN. *)
Definition fgt (a b : fp R) : bool :=
  match a, b with
  | Finite p, Finite q => if Rgt_dec p q then true else false
  | _, _ => false
  end.

Definition ellipse_components (solve : Matrix 2 2 -> SelfAdjointEigenSolver)
    (X : Matrix 2 2) : fp R * fp R * R :=
  let a := solve X in
  let e0 := fsqrt (vget (eigenvalues a) 0) in
  let e1 := fsqrt (vget (eigenvalues a) 1) in
  if fgt e0 e1 then
    let theta := atan2 (mget (eigenvectors a) 1 0) (mget (eigenvectors a) 0 0) in
    (e0, e1, theta)
  else
    let theta := atan2 (mget (eigenvectors a) 1 1) (mget (eigenvectors a) 0 1) in
    (e1, e0, theta).

(** The three results as one value, finite when the two axes are. *)
Definition all_finite (r : fp R * fp R * R) : fp (R * R * R) :=
  match r with
  | (Finite major, Finite minor, theta) => Finite (major, minor, theta)
  | _ => NonFinite
  end.

(** * Proofs *)

(** Unfolds the matrix operations on matrices of known size. *)
Ltac mat_unfold :=
  cbv [mmul mvmul madd msub vadd vsub transpose col dot identity zero trace
       mget mset vget vset tget tset tmap tzip tinit tsum fst snd Nat.eqb].

Ltac mat_unfold_in H :=
  cbv [mmul mvmul madd msub vadd vsub transpose col dot identity zero trace
       mget mset vget vset tget tset tmap tzip tinit tsum fst snd Nat.eqb] in H.

Lemma pair_eq {A B : Type} (a a' : A) (b b' : B) :
  a = a' -> b = b' -> (a, b) = (a', b').
Proof. intros -> ->. reflexivity. Qed.

(** Reduces an equation between two tuples to the equations between their
    entries. *)
Ltac tuple_eq :=
  repeat match goal with
         | |- (_, _) = (_, _) => apply pair_eq
         | |- tt = tt => reflexivity
         end.

(** ** constrain_angle *)

Lemma constrain_angle_cases (radian : R) :
  (radian < - PI /\ constrain_angle radian = radian + 2 * PI) \/
  (- PI <= radian /\ PI < radian /\ constrain_angle radian = radian - 2 * PI) \/
  (- PI <= radian <= PI /\ constrain_angle radian = radian).
Proof.
  unfold constrain_angle.
  destruct (Rlt_dec radian (- PI)) as [Hlt | Hge].
  - left; split; [assumption | reflexivity].
  - destruct (Rgt_dec radian PI) as [Hgt | Hle].
    + right; left; repeat split; [lra | exact Hgt].
    + right; right; repeat split; lra.
Qed.

Lemma constrain_angle_fixed (radian : R) :
  wrapped_closed radian -> constrain_angle radian = radian.
Proof.
  intros [Hlo Hhi].
  destruct (constrain_angle_cases radian) as [[H _] | [[_ [H _]] | [_ H]]];
    [lra | lra | exact H].
Qed.

Lemma constrain_angle_congruent (radian : R) :
  congruent_2pi (constrain_angle radian) radian.
Proof.
  destruct (constrain_angle_cases radian) as [[_ H] | [[_ [_ H]] | [_ H]]];
    rewrite H.
  - exists 1%Z; simpl; ring.
  - exists (-1)%Z; simpl; ring.
  - exists 0%Z; simpl; ring.
Qed.

Lemma constrain_angle_closed (radian : R) :
  - 3 * PI <= radian <= 3 * PI -> wrapped_closed (constrain_angle radian).
Proof.
  intros [Hlo Hhi]. unfold wrapped_closed.
  destruct (constrain_angle_cases radian) as [[Hc H] | [[Hc1 [Hc2 H]] | [Hc H]]];
    rewrite H; lra.
Qed.

(** C7, as stated, fails at the lower end: [- PI] is in (-3 pi, 3 pi), it is
    neither below [- M_PI] nor above [M_PI], so it is returned as it is, and
    it is not in (-pi, pi]. *)
Lemma constrain_angle_minus_pi_not_wrapped :
  - 3 * PI < - PI < 3 * PI /\ ~ wrapped (constrain_angle (- PI)).
Proof.
  pose proof PI_RGT_0 as Hpi.
  split; [lra |].
  rewrite constrain_angle_fixed by (unfold wrapped_closed; lra).
  unfold wrapped; lra.
Qed.

(** C7 (amended): for every angle in (-3 pi, 3 pi), [constrain_angle] gives
    an angle of the closed interval [-pi, pi], which is in (-pi, pi] unless
    the input is exactly -pi, congruent to the input modulo 2 pi; and
    wrapping twice is wrapping once. *)
Theorem constrain_angle_spec (theta : R) :
  - 3 * PI < theta < 3 * PI ->
  wrapped_closed (constrain_angle theta) /\
  (theta <> - PI -> wrapped (constrain_angle theta)) /\
  congruent_2pi (constrain_angle theta) theta /\
  constrain_angle (constrain_angle theta) = constrain_angle theta.
Proof.
  intros [Hlo Hhi].
  assert (Hc : wrapped_closed (constrain_angle theta))
    by (apply constrain_angle_closed; lra).
  split; [exact Hc | split; [| split]].
  - intros Hne. unfold wrapped.
    destruct (constrain_angle_cases theta) as [[Hc1 H] | [[Hc1 [Hc2 H]] | [Hc1 H]]];
      rewrite H; lra.
  - apply constrain_angle_congruent.
  - apply constrain_angle_fixed, Hc.
Qed.

Lemma constrain_angle_spec_witness :
  - 3 * PI < 4 < 3 * PI /\
  (wrapped_closed (constrain_angle 4) /\
   (4 <> - PI -> wrapped (constrain_angle 4)) /\
   congruent_2pi (constrain_angle 4) 4 /\
   constrain_angle (constrain_angle 4) = constrain_angle 4).
Proof.
  assert (H : - 3 * PI < 4 < 3 * PI)
    by (pose proof PI2_3_2; pose proof PI_4; lra).
  split; [exact H | exact (constrain_angle_spec 4 H)].
Defined.

(** ** Derivatives

    The rules of differentiation of the Standard Library, stated on
    functions written with [fun], so that they can be applied to the
    components of the motion model as they are written. *)

Section Derivatives.

Variables (f g : R -> R) (t0 a b : R).

Lemma dl_const (c : R) : derivable_pt_lim (fun _ => c) t0 0.
Proof. exact (derivable_pt_lim_const c t0). Qed.

Lemma dl_id : derivable_pt_lim (fun t => t) t0 1.
Proof. exact (derivable_pt_lim_id t0). Qed.

Lemma dl_plus :
  derivable_pt_lim f t0 a -> derivable_pt_lim g t0 b ->
  derivable_pt_lim (fun t => f t + g t) t0 (a + b).
Proof. exact (derivable_pt_lim_plus f g t0 a b). Qed.

Lemma dl_minus :
  derivable_pt_lim f t0 a -> derivable_pt_lim g t0 b ->
  derivable_pt_lim (fun t => f t - g t) t0 (a - b).
Proof. exact (derivable_pt_lim_minus f g t0 a b). Qed.

Lemma dl_opp :
  derivable_pt_lim f t0 a -> derivable_pt_lim (fun t => - f t) t0 (- a).
Proof. exact (derivable_pt_lim_opp f t0 a). Qed.

Lemma dl_mult :
  derivable_pt_lim f t0 a -> derivable_pt_lim g t0 b ->
  derivable_pt_lim (fun t => f t * g t) t0 (a * g t0 + f t0 * b).
Proof. exact (derivable_pt_lim_mult f g t0 a b). Qed.

Lemma dl_div :
  derivable_pt_lim f t0 a -> derivable_pt_lim g t0 b -> g t0 <> 0 ->
  derivable_pt_lim (fun t => f t / g t) t0 ((a * g t0 - b * f t0) / Rsqr (g t0)).
Proof. exact (derivable_pt_lim_div f g t0 a b). Qed.

Lemma dl_sin :
  derivable_pt_lim f t0 a ->
  derivable_pt_lim (fun t => sin (f t)) t0 (cos (f t0) * a).
Proof.
  intros Hf.
  exact (derivable_pt_lim_comp f sin t0 a (cos (f t0)) Hf
           (derivable_pt_lim_sin (f t0))).
Qed.

Lemma dl_cos :
  derivable_pt_lim f t0 a ->
  derivable_pt_lim (fun t => cos (f t)) t0 (- sin (f t0) * a).
Proof.
  intros Hf.
  exact (derivable_pt_lim_comp f cos t0 a (- sin (f t0)) Hf
           (derivable_pt_lim_cos (f t0))).
Qed.

Lemma dl_value :
  derivable_pt_lim f t0 a -> a = b -> derivable_pt_lim f t0 b.
Proof. intros Hf <-. exact Hf. Qed.

End Derivatives.

(** Differentiates a function written with [+ - * / sin cos]; the side
    conditions of the quotients are left to [assumption]. *)
Ltac derive :=
  first
    [ apply dl_const
    | apply dl_id
    | eapply dl_plus; derive
    | eapply dl_minus; derive
    | eapply dl_opp; derive
    | eapply dl_mult; derive
    | eapply dl_sin; derive
    | eapply dl_cos; derive
    | eapply dl_div; [derive | derive | cbv beta; assumption] ].

(** ** Prediction *)

Lemma EPS_pos : 0 < EPS.
Proof. unfold EPS; lra. Qed.

Lemma above_EPS_nonzero (w : R) : Rabs w > EPS -> w <> 0.
Proof.
  intros Hw Hz. subst w. rewrite Rabs_R0 in Hw. pose proof EPS_pos. lra.
Qed.

Lemma predict_arc (v w dt : R) (s : EKF_localization) :
  Rabs w > EPS ->
  predict v w dt s =
  mkLocals (arc_motion dt (vec2 v w) (m_mu s))
           (propagate (arc_G v w dt (yaw s)) (arc_V v w dt (yaw s))
                      (motion_noise v w) (m_cov s))
           (zero 2 3) (zero 2 2).
Proof.
  intros Hw. unfold predict.
  destruct (Rgt_dec (Rabs w) EPS) as [_ | Hn]; [| contradiction].
  reflexivity.
Qed.

Lemma predict_line (v w dt : R) (s : EKF_localization) :
  Rabs w <= EPS ->
  predict v w dt s =
  mkLocals (line_motion dt (vec2 v w) (m_mu s))
           (propagate (line_G v dt (yaw s)) (line_V v dt (yaw s))
                      (motion_noise v w) (m_cov s))
           (zero 2 3) (zero 2 2).
Proof.
  intros Hw. unfold predict.
  destruct (Rgt_dec (Rabs w) EPS) as [Hn | _]; [lra |].
  reflexivity.
Qed.

Ltac jacobian_entry :=
  cbv [arc_motion line_motion arc_G arc_V line_G line_V vec2 vec3
       mget vget vset tget tset tinit fst snd];
  eapply dl_value; [derive | unfold Rsqr; try field; try assumption].

Lemma arc_G_jacobian (v w dt : R) (p : Vec 3) :
  w <> 0 ->
  is_jacobian (arc_motion dt (vec2 v w)) p (arc_G v w dt (vget p 2)).
Proof.
  intros Hw i j Hi Hj.
  destruct p as [px [py [theta []]]].
  destruct i as [| [| [| i]]]; [| | | lia];
    (destruct j as [| [| [| j]]]; [| | | lia]); jacobian_entry.
Qed.

Lemma arc_V_jacobian (v w dt : R) (p : Vec 3) :
  w <> 0 ->
  is_jacobian (fun u => arc_motion dt u p) (vec2 v w) (arc_V v w dt (vget p 2)).
Proof.
  intros Hw i j Hi Hj.
  destruct p as [px [py [theta []]]].
  destruct i as [| [| [| i]]]; [| | | lia];
    (destruct j as [| [| j]]; [| | lia]); jacobian_entry.
Qed.

Lemma line_G_jacobian (v w dt : R) (p : Vec 3) :
  is_jacobian (line_motion dt (vec2 v w)) p (line_G v dt (vget p 2)).
Proof.
  intros i j Hi Hj.
  destruct p as [px [py [theta []]]].
  destruct i as [| [| [| i]]]; [| | | lia];
    (destruct j as [| [| [| j]]]; [| | | lia]); jacobian_entry.
Qed.

(** ** The straight line as the limit of the arc *)

Lemma tends_to_ext (f g : R -> R) (l : R) :
  (forall w, w <> 0 -> f w = g w) -> tends_to_at_0 f l -> tends_to_at_0 g l.
Proof.
  intros Hfg Hf eps Heps.
  destruct (Hf eps Heps) as [delta [Hd Hlim]].
  exists delta. split; [exact Hd |].
  intros w Hw Hwd. rewrite <- (Hfg w Hw). exact (Hlim w Hw Hwd).
Qed.

Lemma tends_to_const (c : R) : tends_to_at_0 (fun _ => c) c.
Proof.
  intros eps Heps. exists 1. split; [lra |].
  intros w _ _. rewrite Rminus_diag, Rabs_R0. exact Heps.
Qed.

Lemma tends_to_affine (f : R -> R) (l c k : R) :
  tends_to_at_0 f l -> tends_to_at_0 (fun w => c + k * f w) (c + k * l).
Proof.
  intros Hf eps Heps.
  assert (Hk : 0 < Rabs k + 1) by (pose proof (Rabs_pos k); lra).
  destruct (Hf (eps / (Rabs k + 1))) as [delta [Hd Hlim]].
  { apply Rdiv_lt_0_compat; assumption. }
  exists delta. split; [exact Hd |].
  intros w Hw Hwd. specialize (Hlim w Hw Hwd).
  replace (c + k * f w - (c + k * l)) with (k * (f w - l)) by ring.
  rewrite Rabs_mult.
  apply Rle_lt_trans with ((Rabs k + 1) * Rabs (f w - l)).
  - pose proof (Rabs_pos (f w - l)). nra.
  - apply Rlt_le_trans with ((Rabs k + 1) * (eps / (Rabs k + 1))).
    + apply Rmult_lt_compat_l; assumption.
    + right. field. lra.
Qed.

Lemma tends_to_id : tends_to_at_0 (fun w => w) 0.
Proof.
  intros eps Heps. exists eps. split; [exact Heps |].
  intros w _ Hw. rewrite Rminus_0_r. exact Hw.
Qed.

(** The difference quotient of a function at 0 tends to its derivative. *)
Lemma quotient_tends_to (f : R -> R) (d : R) :
  derivable_pt_lim f 0 d ->
  tends_to_at_0 (fun w => (f w - f 0) / w) d.
Proof.
  intros Hf eps Heps.
  destruct (Hf eps Heps) as [delta Hlim].
  exists delta. split; [apply cond_pos |].
  intros w Hw Hwd. specialize (Hlim w Hw Hwd).
  rewrite Rplus_0_l in Hlim. exact Hlim.
Qed.

Lemma sin_quotient (theta dt : R) :
  tends_to_at_0 (fun w => (sin (theta + w * dt) - sin theta) / w) (cos theta * dt).
Proof.
  assert (Hd : derivable_pt_lim (fun w => sin (theta + w * dt)) 0 (cos theta * dt)).
  { eapply dl_value; [derive |]. cbv beta.
    replace (theta + 0 * dt) with theta by ring. ring. }
  pose proof (quotient_tends_to _ _ Hd) as Hq. cbv beta in Hq.
  replace (theta + 0 * dt) with theta in Hq by ring. exact Hq.
Qed.

Lemma cos_quotient (theta dt : R) :
  tends_to_at_0 (fun w => (cos (theta + w * dt) - cos theta) / w) (- sin theta * dt).
Proof.
  assert (Hd : derivable_pt_lim (fun w => cos (theta + w * dt)) 0 (- sin theta * dt)).
  { eapply dl_value; [derive |]. cbv beta.
    replace (theta + 0 * dt) with theta by ring. ring. }
  pose proof (quotient_tends_to _ _ Hd) as Hq. cbv beta in Hq.
  replace (theta + 0 * dt) with theta in Hq by ring. exact Hq.
Qed.

(** Every component of the arc motion tends to that of the straight-line
    motion when [w] tends to 0. *)
Lemma arc_motion_tends_to_line (v dt : R) (p : Vec 3) (i : nat) :
  (i < 3)%nat ->
  tends_to_at_0 (fun w => vget (arc_motion dt (vec2 v w) p) i)
                (vget (line_motion dt (vec2 v 0) p) i).
Proof.
  intros Hi. destruct p as [px [py [theta []]]].
  destruct i as [| [| [| i]]]; [| | | lia];
    cbv [arc_motion line_motion vec2 vec3 vget tget fst snd].
  - apply (tends_to_ext
             (fun w => px + v * ((sin (theta + w * dt) - sin theta) / w))).
    + intros w Hw. field. exact Hw.
    + replace (px + v * cos theta * dt) with (px + v * (cos theta * dt)) by ring.
      apply tends_to_affine, sin_quotient.
  - apply (tends_to_ext
             (fun w => py + - v * ((cos (theta + w * dt) - cos theta) / w))).
    + intros w Hw. field. exact Hw.
    + replace (py + v * sin theta * dt) with (py + - v * (- sin theta * dt)) by ring.
      apply tends_to_affine, cos_quotient.
  - apply (tends_to_ext (fun w => theta + dt * w)).
    + intros w _. ring.
    + pose proof (tends_to_affine (fun w => w) 0 theta dt tends_to_id) as Hlim.
      rewrite Rmult_0_r, Rplus_0_r in Hlim. exact Hlim.
Qed.

(** Every entry of G of the arc tends to that of G of the straight line. *)
Lemma arc_G_tends_to_line (v dt theta : R) (i j : nat) :
  (i < 3)%nat -> (j < 3)%nat ->
  tends_to_at_0 (fun w => mget (arc_G v w dt theta) i j)
                (mget (line_G v dt theta) i j).
Proof.
  intros Hi Hj.
  destruct i as [| [| [| i]]]; [| | | lia];
    (destruct j as [| [| [| j]]]; [| | | lia]);
    cbv [arc_G line_G mget tget tinit fst snd];
    try apply tends_to_const.
  - apply (tends_to_ext
             (fun w => 0 + v * ((cos (theta + w * dt) - cos theta) / w))).
    + intros w Hw. field. exact Hw.
    + replace (- v * sin theta * dt) with (0 + v * (- sin theta * dt)) by ring.
      apply tends_to_affine, cos_quotient.
  - apply (tends_to_ext
             (fun w => 0 + v * ((sin (theta + w * dt) - sin theta) / w))).
    + intros w Hw. field. exact Hw.
    + replace (v * cos theta * dt) with (0 + v * (cos theta * dt)) by ring.
      apply tends_to_affine, sin_quotient.
Qed.

(** Every entry of the first column of V of the arc, the derivative in the
    velocity, tends to that of V of the straight line. *)
Lemma arc_V_tends_to_line (v dt theta : R) (i : nat) :
  (i < 3)%nat ->
  tends_to_at_0 (fun w => mget (arc_V v w dt theta) i 0)
                (mget (line_V v dt theta) i 0).
Proof.
  intros Hi.
  destruct i as [| [| [| i]]]; [| | | lia];
    cbv [arc_V line_V mget tget tinit fst snd];
    try apply tends_to_const.
  - apply (tends_to_ext
             (fun w => 0 + 1 * ((sin (theta + w * dt) - sin theta) / w))).
    + intros w Hw. field. exact Hw.
    + replace (cos theta * dt) with (0 + 1 * (cos theta * dt)) by ring.
      apply tends_to_affine, sin_quotient.
  - apply (tends_to_ext
             (fun w => 0 + -1 * ((cos (theta + w * dt) - cos theta) / w))).
    + intros w Hw. field. exact Hw.
    + replace (sin theta * dt) with (0 + -1 * (- sin theta * dt)) by ring.
      apply tends_to_affine, cos_quotient.
Qed.

(** The second column of V, the derivative in the angular velocity, needs
    the second order: by the mean value theorem the numerators differ from
    their parabolas by at most the cube of the angle. *)
Lemma sin_lipschitz (theta h : R) : Rabs (sin (theta + h) - sin theta) <= Rabs h.
Proof.
  destruct (MVT_abs (fun t => sin (theta + t)) (fun t => cos (theta + t)) 0 h)
    as [c [Hc _]].
  { intros c _. eapply dl_value; [derive | cbv beta; ring]. }
  cbv beta in Hc. rewrite Rplus_0_r, Rminus_0_r in Hc. rewrite Hc.
  pose proof (COS_bound (theta + c)) as Hb. pose proof (Rabs_pos h).
  assert (Rabs (cos (theta + c)) <= 1) by (apply Rabs_le; lra).
  nra.
Qed.

Lemma cos_lipschitz (theta h : R) : Rabs (cos (theta + h) - cos theta) <= Rabs h.
Proof.
  destruct (MVT_abs (fun t => cos (theta + t)) (fun t => - sin (theta + t)) 0 h)
    as [c [Hc _]].
  { intros c _. eapply dl_value; [derive | cbv beta; ring]. }
  cbv beta in Hc. rewrite Rplus_0_r, Rminus_0_r in Hc. rewrite Hc.
  pose proof (SIN_bound (theta + c)) as Hb. pose proof (Rabs_pos h).
  assert (Rabs (- sin (theta + c)) <= 1) by (apply Rabs_le; lra).
  nra.
Qed.

Lemma between_0_abs (c h : R) : Rmin 0 h <= c <= Rmax 0 h -> Rabs c <= Rabs h.
Proof.
  unfold Rmin, Rmax. destruct (Rle_dec 0 h) as [Hh | Hh]; intros [Hlo Hhi].
  - rewrite !Rabs_right by lra. lra.
  - rewrite !Rabs_left1 by lra. lra.
Qed.

Lemma cube_bound (f f' : R -> R) (h : R) :
  f 0 = 0 ->
  (forall c, derivable_pt_lim f c (f' c)) ->
  (forall c, Rabs (f' c) <= Rabs c * Rabs c) ->
  Rabs (f h) <= Rabs h * Rabs h * Rabs h.
Proof.
  intros H0 Hd Hb.
  destruct (MVT_abs f f' 0 h (fun c _ => Hd c)) as [c [Hc Hin]].
  rewrite H0, !Rminus_0_r in Hc. rewrite Hc.
  pose proof (between_0_abs c h Hin) as Hch.
  pose proof (Hb c) as Hbc.
  pose proof (Rabs_pos c). pose proof (Rabs_pos h). pose proof (Rabs_pos (f' c)).
  apply Rmult_le_compat_r; [assumption |].
  apply Rle_trans with (Rabs c * Rabs c); [exact Hbc | nra].
Qed.

Lemma arc_x_second_order (theta h : R) :
  Rabs (sin theta - sin (theta + h) + h * cos (theta + h) + sin theta / 2 * (h * h))
  <= Rabs h * Rabs h * Rabs h.
Proof.
  apply (cube_bound
           (fun t => sin theta - sin (theta + t) + t * cos (theta + t)
                     + sin theta / 2 * (t * t))
           (fun c => - c * (sin (theta + c) - sin theta))).
  - rewrite Rplus_0_r. field.
  - intros c. eapply dl_value; [derive | cbv beta; field].
  - intros c. rewrite Rabs_mult, Rabs_Ropp.
    apply Rmult_le_compat_l; [apply Rabs_pos | apply sin_lipschitz].
Qed.

Lemma arc_y_second_order (theta h : R) :
  Rabs (- (cos theta - cos (theta + h)) + h * sin (theta + h) - cos theta / 2 * (h * h))
  <= Rabs h * Rabs h * Rabs h.
Proof.
  apply (cube_bound
           (fun t => - (cos theta - cos (theta + t)) + t * sin (theta + t)
                     - cos theta / 2 * (t * t))
           (fun c => c * (cos (theta + c) - cos theta))).
  - rewrite Rplus_0_r. field.
  - intros c. eapply dl_value; [derive | cbv beta; field].
  - intros c. rewrite Rabs_mult.
    apply Rmult_le_compat_l; [apply Rabs_pos | apply cos_lipschitz].
Qed.

Lemma tends_to_linear_bound (f : R -> R) (l K : R) :
  (forall w, w <> 0 -> Rabs (f w - l) <= K * Rabs w) -> tends_to_at_0 f l.
Proof.
  intros Hb eps Heps.
  assert (HK : 0 < Rabs K + 1) by (pose proof (Rabs_pos K); lra).
  exists (eps / (Rabs K + 1)). split; [apply Rdiv_lt_0_compat; assumption |].
  intros w Hw Hwd.
  apply Rle_lt_trans with (K * Rabs w); [exact (Hb w Hw) |].
  apply Rle_lt_trans with ((Rabs K + 1) * Rabs w).
  - pose proof (Rabs_pos w). pose proof (Rle_abs K). nra.
  - apply Rlt_le_trans with ((Rabs K + 1) * (eps / (Rabs K + 1))).
    + apply Rmult_lt_compat_l; assumption.
    + right. field. lra.
Qed.

Lemma cube_over_square (v dt w e : R) :
  w <> 0 ->
  Rabs e <= Rabs (w * dt) * Rabs (w * dt) * Rabs (w * dt) ->
  Rabs (v * e / (w * w)) <= Rabs v * (Rabs dt * Rabs dt * Rabs dt) * Rabs w.
Proof.
  intros Hw He.
  assert (Hw2 : 0 < Rabs w) by (apply Rabs_pos_lt; exact Hw).
  unfold Rdiv. rewrite !Rabs_mult, Rabs_inv, Rabs_mult in *.
  pose proof (Rabs_pos v) as Hv. pose proof (Rabs_pos dt) as Hdt.
  apply Rle_trans
    with (Rabs v * (Rabs w * Rabs dt * (Rabs w * Rabs dt) * (Rabs w * Rabs dt))
          * / (Rabs w * Rabs w)).
  - apply Rmult_le_compat_r.
    + left. apply Rinv_0_lt_compat. nra.
    + apply Rmult_le_compat_l; assumption.
  - right. field. lra.
Qed.

(** Every entry of the second column of V of the arc tends to that of V of
    the straight line. *)
Lemma arc_V_tends_to_line_w (v dt theta : R) (i : nat) :
  (i < 3)%nat ->
  tends_to_at_0 (fun w => mget (arc_V v w dt theta) i 1)
                (mget (line_V v dt theta) i 1).
Proof.
  intros Hi.
  destruct i as [| [| [| i]]]; [| | | lia];
    cbv [arc_V line_V mget tget tinit fst snd];
    try apply tends_to_const.
  - apply (tends_to_linear_bound _ _ (Rabs v * (Rabs dt * Rabs dt * Rabs dt))).
    intros w Hw.
    replace (v * (sin theta - sin (theta + w * dt)) / (w * w)
             + v * cos (theta + w * dt) * dt / w
             - - v * sin theta * dt * dt * (1 / 2))
      with (v * (sin theta - sin (theta + w * dt) + w * dt * cos (theta + w * dt)
                 + sin theta / 2 * (w * dt * (w * dt))) / (w * w))
      by (field; exact Hw).
    apply cube_over_square; [exact Hw | apply arc_x_second_order].
  - apply (tends_to_linear_bound _ _ (Rabs v * (Rabs dt * Rabs dt * Rabs dt))).
    intros w Hw.
    replace (- v * (cos theta - cos (theta + w * dt)) / (w * w)
             + v * sin (theta + w * dt) * dt / w
             - v * cos theta * dt * dt * (1 / 2))
      with (v * (- (cos theta - cos (theta + w * dt)) + w * dt * sin (theta + w * dt)
                 - cos theta / 2 * (w * dt * (w * dt))) / (w * w))
      by (field; exact Hw).
    apply cube_over_square; [exact Hw | apply arc_y_second_order].
Qed.

(** ** The update cycle *)

Section Cycle.

Variable lrb : Landmark -> R -> R -> R -> R * R.

(** [update] predicts, runs the landmark loop on the prediction and only
    then stores the mean and the covariance. *)
Lemma update_unfold (v w dt : R) (landmarks : list Landmark)
    (s : EKF_localization) :
  update lrb v w landmarks dt s =
  (st <- correction lrb landmarks (predict v w dt s) ;;
   Finite (mkEKF (MU st) (COV st) dt)).
Proof. reflexivity. Qed.

Lemma update_nil (v w dt : R) (s : EKF_localization) :
  update lrb v w [] dt s =
  Finite (mkEKF (MU (predict v w dt s)) (COV (predict v w dt s)) dt).
Proof. reflexivity. Qed.

End Cycle.

(** C1: for |w| > 1e-4 the prediction of [update] has the mean of the
    circular-arc closed form and the covariance G Sigma G^T + V M V^T, where
    M is the diagonal matrix of the two noise scalars and G and V are the
    matrices of the partial derivatives of the arc motion in the state and
    in the control, taken at the prior mean; this prediction is what the
    landmark loop starts from, and what is stored when there is no landmark. *)
Theorem update_predicts_arc (lrb : Landmark -> R -> R -> R -> R * R)
    (v w dt : R) (s : EKF_localization) :
  Rabs w > EPS ->
  let theta := vget (m_mu s) 2 in
  let mu' :=
    vec3 (vget (m_mu s) 0 - (v / w) * sin theta + (v / w) * sin (theta + w * dt))
         (vget (m_mu s) 1 + (v / w) * cos theta - (v / w) * cos (theta + w * dt))
         (theta + w * dt) in
  let M := diag2 (pow2 (ALPHA1 * Rabs v + ALPHA2 * Rabs w))
                 (pow2 (ALPHA3 * Rabs v + ALPHA4 * Rabs w)) in
  let G := arc_G v w dt theta in
  let V := arc_V v w dt theta in
  let Sigma' := G *m m_cov s *m transpose G +m V *m M *m transpose V in
  is_jacobian (arc_motion dt (vec2 v w)) (m_mu s) G /\
  is_jacobian (fun u => arc_motion dt u (m_mu s)) (vec2 v w) V /\
  MU (predict v w dt s) = mu' /\
  COV (predict v w dt s) = Sigma' /\
  (forall landmarks,
     update lrb v w landmarks dt s =
     (st <- correction lrb landmarks (mkLocals mu' Sigma' (zero 2 3) (zero 2 2)) ;;
      Finite (mkEKF (MU st) (COV st) dt))) /\
  update lrb v w [] dt s = Finite (mkEKF mu' Sigma' dt).
Proof.
  intros Hw theta mu' M G V Sigma'.
  pose proof (above_EPS_nonzero w Hw) as Hw0.
  pose proof (predict_arc v w dt s Hw) as Hp.
  split; [apply arc_G_jacobian; exact Hw0 |].
  split; [apply arc_V_jacobian; exact Hw0 |].
  split; [rewrite Hp; reflexivity |].
  split; [rewrite Hp; reflexivity |].
  split.
  - intros landmarks. rewrite update_unfold, Hp. reflexivity.
  - rewrite update_nil, Hp. reflexivity.
Qed.

Lemma update_predicts_arc_witness :
  Rabs 1 > EPS /\
  vget (MU (predict 1 1 1 origin)) 2 = 1 /\
  exists s', update Robot_landmark_range_bearing 1 1 [] 1 origin = Finite s'.
Proof.
  assert (Hw : Rabs 1 > EPS) by (rewrite Rabs_R1; unfold EPS; lra).
  split; [exact Hw |].
  destruct (update_predicts_arc Robot_landmark_range_bearing 1 1 1 origin Hw)
    as [_ [_ [Hmu [_ [_ Hnil]]]]].
  split.
  - rewrite Hmu. cbv [origin m_mu vec3 vget tget fst snd]. ring.
  - eexists. exact Hnil.
Defined.

(** C2: for |w| <= 1e-4 the prediction of [update] moves the mean by
    (v cos(theta) dt, v sin(theta) dt, 0) and propagates the covariance with
    the simplified G and V; with w = 0, v = 100, dt = 0.5, theta = 0 and no
    landmark the stored x is the old x plus 50 and the stored y is the old
    y.  The forms are limiting forms: the mean, G and V are, entry by
    entry, the limits of those of the arc for w tending to 0, and G is the
    matrix of the partial derivatives of the straight-line motion. *)
Theorem update_predicts_line (lrb : Landmark -> R -> R -> R -> R * R)
    (v w dt : R) (s : EKF_localization) :
  Rabs w <= EPS ->
  let theta := vget (m_mu s) 2 in
  let mu' :=
    vec3 (vget (m_mu s) 0 + v * cos theta * dt)
         (vget (m_mu s) 1 + v * sin theta * dt)
         theta in
  let M := diag2 (pow2 (ALPHA1 * Rabs v + ALPHA2 * Rabs w))
                 (pow2 (ALPHA3 * Rabs v + ALPHA4 * Rabs w)) in
  let G := line_G v dt theta in
  let V := line_V v dt theta in
  let Sigma' := G *m m_cov s *m transpose G +m V *m M *m transpose V in
  is_jacobian (line_motion dt (vec2 v w)) (m_mu s) G /\
  (forall i, (i < 3)%nat ->
     tends_to_at_0 (fun w0 => vget (arc_motion dt (vec2 v w0) (m_mu s)) i)
                   (vget mu' i)) /\
  (forall i j, (i < 3)%nat -> (j < 3)%nat ->
     tends_to_at_0 (fun w0 => mget (arc_G v w0 dt theta) i j) (mget G i j)) /\
  (forall i j, (i < 3)%nat -> (j < 2)%nat ->
     tends_to_at_0 (fun w0 => mget (arc_V v w0 dt theta) i j) (mget V i j)) /\
  mu' = m_mu s +v vec3 (v * cos theta * dt) (v * sin theta * dt) 0 /\
  MU (predict v w dt s) = mu' /\
  COV (predict v w dt s) = Sigma' /\
  (forall landmarks,
     update lrb v w landmarks dt s =
     (st <- correction lrb landmarks (mkLocals mu' Sigma' (zero 2 3) (zero 2 2)) ;;
      Finite (mkEKF (MU st) (COV st) dt))) /\
  update lrb v w [] dt s = Finite (mkEKF mu' Sigma' dt) /\
  (v = 100 -> w = 0 -> dt = 1 / 2 -> theta = 0 ->
   exists s',
     update lrb v w [] dt s = Finite s' /\
     vget (m_mu s') 0 = vget (m_mu s) 0 + 50 /\
     vget (m_mu s') 1 = vget (m_mu s) 1).
Proof.
  intros Hw theta mu' M G V Sigma'.
  pose proof (predict_line v w dt s Hw) as Hp.
  assert (Hmu : line_motion dt (vec2 v w) (m_mu s) = mu') by reflexivity.
  assert (Hnil : update lrb v w [] dt s = Finite (mkEKF mu' Sigma' dt)).
  { rewrite update_nil, Hp. cbn [MU COV]. rewrite Hmu. reflexivity. }
  split; [apply line_G_jacobian |].
  split; [intros i Hi; apply (arc_motion_tends_to_line v dt (m_mu s) i Hi) |].
  split; [intros i j Hi Hj; apply (arc_G_tends_to_line v dt theta i j Hi Hj) |].
  split.
  { intros i j Hi Hj. destruct j as [| [| j]]; [| | lia].
    - apply (arc_V_tends_to_line v dt theta i Hi).
    - apply (arc_V_tends_to_line_w v dt theta i Hi). }
  split.
  { unfold mu', theta. destruct (m_mu s) as [px [py [th []]]].
    cbv [vadd vec3 vget tget tzip fst snd]. tuple_eq; ring. }
  split; [rewrite Hp; exact Hmu |].
  split; [rewrite Hp; reflexivity |].
  split; [| split; [exact Hnil |]].
  - intros landmarks. rewrite update_unfold, Hp, Hmu. reflexivity.
  - intros Hv Hw0 Hdt Hth.
    exists (mkEKF mu' Sigma' dt). split; [exact Hnil |].
    unfold mu'. cbv [m_mu vec3 vget tget fst snd].
    fold theta. rewrite Hth, Hv, Hdt, cos_0, sin_0. split; lra.
Qed.

Lemma update_predicts_line_witness :
  Rabs 0 <= EPS /\
  exists s',
    update Robot_landmark_range_bearing 100 0 [] (1 / 2) origin = Finite s' /\
    vget (m_mu s') 0 = vget (m_mu origin) 0 + 50 /\
    vget (m_mu s') 1 = vget (m_mu origin) 1.
Proof.
  assert (Hw : Rabs 0 <= EPS) by (rewrite Rabs_R0; unfold EPS; lra).
  split; [exact Hw |].
  destruct (update_predicts_line Robot_landmark_range_bearing 100 0 (1 / 2) origin Hw)
    as [_ [_ [_ [_ [_ [_ [_ [_ [_ Hex]]]]]]]]].
  exact (Hex eq_refl eq_refl eq_refl eq_refl).
Defined.

(** ** Lemmas on [fp] and on the inverse *)

Lemma fdiv_nonzero (a b : R) : b <> 0 -> a // b = Finite (a / b).
Proof.
  intros Hb. unfold fdiv. destruct (Req_dec_T b 0) as [Hz | _]; [contradiction |].
  reflexivity.
Qed.

Lemma fdiv_zero (a b : R) : b = 0 -> a // b = NonFinite.
Proof.
  intros Hb. unfold fdiv. destruct (Req_dec_T b 0) as [_ | Hn]; [| contradiction].
  reflexivity.
Qed.

Lemma bind_assoc {A B C : Type} (c : fp A) (k : A -> fp B) (k' : B -> fp C) :
  bind (bind c k) k' = bind c (fun a => bind (k a) k').
Proof. destruct c; reflexivity. Qed.

Lemma inverse2_singular (A : Matrix 2 2) : det2 A = 0 -> inverse2 A = NonFinite.
Proof.
  intros Hd. unfold inverse2. rewrite (fdiv_zero 1 (det2 A) Hd). reflexivity.
Qed.

Lemma inverse2_regular (A : Matrix 2 2) :
  det2 A <> 0 ->
  exists B, inverse2 A = Finite B /\ is_inverse2 A B.
Proof.
  intros Hd. unfold inverse2. rewrite (fdiv_nonzero 1 (det2 A) Hd).
  eexists; split; [reflexivity |].
  destruct A as [[a [b []]] [[c [d []]] []]].
  unfold det2 in *. mat_unfold_in Hd.
  unfold is_inverse2; split; mat_unfold; tuple_eq; field; exact Hd.
Qed.

(** ** One iteration of the landmark loop *)

Lemma H_overwritten (H0 : Matrix 2 3) (a b c d e f : R) :
  mset (mset (mset (mset (mset (mset H0 0 0 a) 0 1 b) 0 2 c) 1 0 d) 1 1 e) 1 2 f
  = ((a, (b, (c, tt))), ((d, (e, (f, tt))), tt)).
Proof. destruct H0 as [[h00 [h01 [h02 []]]] [[h10 [h11 [h12 []]]] []]]. reflexivity. Qed.

Lemma Q_diagonal (Q0 : Matrix 2 2) (a b : R) :
  mget Q0 0 1 = 0 -> mget Q0 1 0 = 0 ->
  mset (mset Q0 0 0 a) 1 1 b = diag2 a b.
Proof.
  destruct Q0 as [[q00 [q01 []]] [[q10 [q11 []]] []]].
  cbv [mget tget tinit fst snd]. intros -> ->. reflexivity.
Qed.

Section Correction.

Variable lrb : Landmark -> R -> R -> R -> R * R.

Lemma correct_skip (l : Landmark) (st : Locals) :
  Rabs (Landmark.range l) <= EPS -> correct lrb l st = Finite st.
Proof.
  intros Hr. unfold correct.
  destruct (Rgt_dec (Rabs (Landmark.range l)) EPS) as [Hgt | _]; [lra |].
  reflexivity.
Qed.

(** Past the test on the observed range and the four divisions by the
    expected range, an iteration is the inversion of [S] followed by the
    fusion. *)
Lemma correct_inverts (l : Landmark) (st : Locals) :
  Rabs (Landmark.range l) > EPS ->
  Q_offdiag_zero st ->
  fst (expected lrb l st) <> 0 ->
  correct lrb l st =
  (Sinv <- inverse2 (S_at lrb l st) ;;
   Finite (mkLocals (fst (fusion lrb l (MU st) (COV st) Sinv))
                    (snd (fusion lrb l (MU st) (COV st) Sinv))
                    (measurement_jacobian l (MU st) (fst (expected lrb l st)))
                    (measurement_noise l))).
Proof.
  intros Hr [Hq01 Hq10] Hz.
  unfold correct, S_at, fusion, expected in *.
  destruct (Rgt_dec (Rabs (Landmark.range l)) EPS) as [_ | Hn]; [| contradiction].
  destruct (lrb l (vget (MU st) 0) (vget (MU st) 1) (vget (MU st) 2))
    as [r b] eqn:Hlrb.
  cbn [fst snd] in *.
  assert (Hrr : r * r <> 0) by (apply Rmult_integral_contrapositive; split; exact Hz).
  rewrite !(fdiv_nonzero _ r Hz), !(fdiv_nonzero _ (r * r) Hrr).
  cbn [bind]. cbv zeta.
  rewrite H_overwritten, (Q_diagonal _ _ _ Hq01 Hq10).
  reflexivity.
Qed.

Lemma correct_degenerate (l : Landmark) (st : Locals) :
  Rabs (Landmark.range l) > EPS ->
  fst (expected lrb l st) = 0 ->
  correct lrb l st = NonFinite.
Proof.
  intros Hr Hz. unfold correct, expected in *.
  destruct (Rgt_dec (Rabs (Landmark.range l)) EPS) as [_ | Hn]; [| contradiction].
  destruct (lrb l (vget (MU st) 0) (vget (MU st) 1) (vget (MU st) 2)) as [r b].
  cbn [fst] in Hz. rewrite (fdiv_zero _ r Hz). reflexivity.
Qed.

Lemma correct_keeps_Q (l : Landmark) (st st' : Locals) :
  Q_offdiag_zero st -> correct lrb l st = Finite st' -> Q_offdiag_zero st'.
Proof.
  intros Hq Hc.
  destruct (Rgt_dec (Rabs (Landmark.range l)) EPS) as [Hr | Hr].
  - destruct (Req_dec_T (fst (expected lrb l st)) 0) as [Hz | Hz].
    + rewrite (correct_degenerate l st Hr Hz) in Hc. discriminate.
    + rewrite (correct_inverts l st Hr Hq Hz) in Hc.
      destruct (inverse2 (S_at lrb l st)) as [Sinv |]; [| discriminate].
      cbn [bind] in Hc. injection Hc as <-.
      split; reflexivity.
  - rewrite correct_skip in Hc by lra. injection Hc as <-. exact Hq.
Qed.

Lemma correction_keeps_Q (landmarks : list Landmark) :
  forall st st' : Locals,
    Q_offdiag_zero st -> correction lrb landmarks st = Finite st' ->
    Q_offdiag_zero st'.
Proof.
  induction landmarks as [| l rest IH]; intros st st' Hq Hc.
  - injection Hc as <-. exact Hq.
  - cbn [correction] in Hc.
    destruct (correct lrb l st) as [st1 |] eqn:H1; [| discriminate].
    cbn [bind] in Hc.
    exact (IH st1 st' (correct_keeps_Q l st st1 Hq H1) Hc).
Qed.

Lemma predict_Q (v w dt : R) (s : EKF_localization) :
  Q_offdiag_zero (predict v w dt s).
Proof.
  unfold predict.
  destruct (Rgt_dec (Rabs w) EPS); split; reflexivity.
Qed.

Lemma correction_app (pre post : list Landmark) :
  forall st : Locals,
    correction lrb (pre ++ post) st =
    (st' <- correction lrb pre st ;; correction lrb post st').
Proof.
  induction pre as [| l rest IH]; intros st.
  - reflexivity.
  - cbn [app correction]. rewrite bind_assoc.
    destruct (correct lrb l st) as [st1 |]; [| reflexivity].
    cbn [bind]. apply IH.
Qed.

(** The loop state when the landmark after the prefix [pre] is reached. *)
Lemma update_reaches (v w dt : R) (pre post : list Landmark) (l : Landmark)
    (s : EKF_localization) (st : Locals) :
  correction lrb pre (predict v w dt s) = Finite st ->
  update lrb v w (pre ++ l :: post) dt s =
  (st1 <- correct lrb l st ;;
   st2 <- correction lrb post st1 ;;
   Finite (mkEKF (MU st2) (COV st2) dt)).
Proof.
  intros Hpre. rewrite update_unfold, correction_app, Hpre.
  cbn [bind correction]. apply bind_assoc.
Qed.

End Correction.


(** ** The concrete inputs *)

Lemma predict_at_rest (Sigma : Matrix 3 3) :
  predict 0 0 1 (mkEKF (vec3 0 0 0) Sigma 0) =
  mkLocals (vec3 0 0 0) Sigma (zero 2 3) (zero 2 2).
Proof.
  rewrite predict_line by (rewrite Rabs_R0; pose proof EPS_pos; lra).
  destruct Sigma as [[a [b [c []]]] [[d [e [f []]]] [[g [h [i []]]] []]]].
  unfold propagate, motion_noise, line_motion, line_G, line_V, diag2, yaw, pow2.
  cbn [m_mu m_cov]. rewrite Rabs_R0.
  mat_unfold. cbv [vec2 vec3]. rewrite sin_0, cos_0.
  f_equal; tuple_eq; unfold ALPHA1, ALPHA2, ALPHA3, ALPHA4; ring.
Qed.

Lemma atan2_ahead : atan2 0 1 = 0.
Proof.
  unfold atan2. destruct (Rlt_dec 0 1) as [_ | Hn]; [| lra].
  unfold Rdiv. rewrite Rmult_0_l. exact atan_0.
Qed.

Lemma expected_ahead (l : Landmark) (Sigma : Matrix 3 3) (H0 : Matrix 2 3)
    (Q0 : Matrix 2 2) :
  Landmark.x l = 1 -> Landmark.y l = 0 ->
  expected Robot_landmark_range_bearing l (mkLocals (vec3 0 0 0) Sigma H0 Q0)
  = (1, 0).
Proof.
  intros Hx Hy. unfold expected, Robot_landmark_range_bearing.
  cbv [MU vec3 vget tget fst snd]. rewrite Hx, Hy.
  replace (1 - 0) with 1 by ring. replace (0 - 0) with 0 by ring.
  replace (1 * 1 + 0 * 0) with 1 by ring.
  rewrite sqrt_1, atan2_ahead. f_equal. ring.
Qed.

Lemma DETECTION_ANGLE_SIGMA_pos : 0 < DETECTION_ANGLE_SIGMA.
Proof. unfold DETECTION_ANGLE_SIGMA. pose proof PI_RGT_0. lra. Qed.

(** With no uncertainty in the state, [S] is the measurement noise. *)
Lemma det_S_at_origin (l : Landmark) :
  Landmark.x l = 1 -> Landmark.y l = 0 ->
  det2 (S_at Robot_landmark_range_bearing l at_origin)
  = pow2 (Landmark.range l * DETECTION_RANGE_ALPHA) * pow2 DETECTION_ANGLE_SIGMA.
Proof.
  intros Hx Hy. unfold S_at, at_origin.
  rewrite (expected_ahead l _ _ _ Hx Hy).
  unfold innovation_covariance, measurement_jacobian, measurement_noise, diag2, det2.
  cbn [MU COV fst]. rewrite Hx, Hy. mat_unfold. cbv [vec3]. field.
Qed.

(** ** Fusion and skipped observations *)

Section Fusion.

Variable lrb : Landmark -> R -> R -> R -> R * R.

Lemma correct_regular (l : Landmark) (st : Locals) :
  Rabs (Landmark.range l) > EPS ->
  Q_offdiag_zero st ->
  fst (expected lrb l st) <> 0 ->
  det2 (S_at lrb l st) <> 0 ->
  exists Sinv,
    is_inverse2 (S_at lrb l st) Sinv /\
    correct lrb l st =
    Finite (mkLocals (fst (fusion lrb l (MU st) (COV st) Sinv))
                     (snd (fusion lrb l (MU st) (COV st) Sinv))
                     (measurement_jacobian l (MU st) (fst (expected lrb l st)))
                     (measurement_noise l)).
Proof.
  intros Hr Hq Hz Hd.
  destruct (inverse2_regular (S_at lrb l st) Hd) as [Sinv [Hinv His]].
  exists Sinv. split; [exact His |].
  rewrite (correct_inverts lrb l st Hr Hq Hz), Hinv. reflexivity.
Qed.

Lemma reached_Q (v w dt : R) (pre : list Landmark) (s : EKF_localization)
    (st : Locals) :
  correction lrb pre (predict v w dt s) = Finite st -> Q_offdiag_zero st.
Proof.
  intros Hpre.
  exact (correction_keeps_Q lrb pre _ st (predict_Q v w dt s) Hpre).
Qed.

End Fusion.

(** C3: an observation with |range| > 1e-4 is fused, when its turn comes in
    the list, into the mean and the covariance that the landmarks before it
    have left: with zhat the expected measurement at that mean,
    S = H Sigma H^T + Q where Q = diag((range DETECTION_RANGE_ALPHA)^2,
    DETECTION_ANGLE_SIGMA^2), K = Sigma H^T S^-1, the mean becomes
    mu + K (z - zhat) with the difference of the bearings taken as it is
    (the heading of the result is then passed through [constrain_angle]),
    and the covariance becomes (I - K H) Sigma; the rest of the list goes on
    from there.  (Stated where S^-1 exists and the expected range is not
    zero.) *)
Theorem correction_fuses (lrb : Landmark -> R -> R -> R -> R * R)
    (v w dt : R) (s : EKF_localization) (pre post : list Landmark)
    (l : Landmark) (st : Locals) :
  correction lrb pre (predict v w dt s) = Finite st ->
  Rabs (Landmark.range l) > EPS ->
  let range_hat := fst (lrb l (vget (MU st) 0) (vget (MU st) 1) (vget (MU st) 2)) in
  let bearing_hat := snd (lrb l (vget (MU st) 0) (vget (MU st) 1) (vget (MU st) 2)) in
  let Hm := measurement_jacobian l (MU st) range_hat in
  let Qm := diag2 (pow2 (Landmark.range l * DETECTION_RANGE_ALPHA))
                  (pow2 DETECTION_ANGLE_SIGMA) in
  let S := Hm *m COV st *m transpose Hm +m Qm in
  range_hat <> 0 ->
  det2 S <> 0 ->
  exists (Sinv : Matrix 2 2) (st' : Locals),
    let K := COV st *m transpose Hm *m Sinv in
    let innovation :=
      vec2 (Landmark.range l - range_hat) (Landmark.bearing l - bearing_hat) in
    is_inverse2 S Sinv /\
    correct lrb l st = Finite st' /\
    MU st' = wrap_heading (MU st +v K *v innovation) /\
    COV st' = (identity 3 -m K *m Hm) *m COV st /\
    update lrb v w (pre ++ l :: post) dt s =
    (st2 <- correction lrb post st' ;; Finite (mkEKF (MU st2) (COV st2) dt)).
Proof.
  intros Hpre Hr range_hat bearing_hat Hm Qm S Hz Hd.
  pose proof (reached_Q lrb v w dt pre s st Hpre) as Hq.
  destruct (correct_regular lrb l st Hr Hq Hz Hd) as [Sinv [His Hc]].
  exists Sinv. eexists. cbv zeta.
  split; [exact His |].
  split; [exact Hc |].
  split; [reflexivity |].
  split; [reflexivity |].
  rewrite (update_reaches lrb v w dt pre post l s st Hpre), Hc. reflexivity.
Qed.

Lemma correction_fuses_witness :
  correction Robot_landmark_range_bearing [] (predict 0 0 1 origin) = Finite at_origin /\
  Rabs (Landmark.range ahead) > EPS /\
  exists st', correct Robot_landmark_range_bearing ahead at_origin = Finite st'.
Proof.
  assert (Hpre : correction Robot_landmark_range_bearing [] (predict 0 0 1 origin)
                 = Finite at_origin).
  { unfold origin. rewrite predict_at_rest. reflexivity. }
  assert (Hr : Rabs (Landmark.range ahead) > EPS).
  { cbn [ahead Landmark.range]. rewrite Rabs_R1. unfold EPS. lra. }
  assert (Hz : fst (expected Robot_landmark_range_bearing ahead at_origin) <> 0).
  { unfold at_origin. rewrite (expected_ahead ahead _ _ _ eq_refl eq_refl).
    cbn [fst]. lra. }
  assert (Hd : det2 (S_at Robot_landmark_range_bearing ahead at_origin) <> 0).
  { rewrite (det_S_at_origin ahead eq_refl eq_refl).
    pose proof DETECTION_ANGLE_SIGMA_pos as Hs.
    cbn [ahead Landmark.range]. unfold pow2, DETECTION_RANGE_ALPHA.
    apply Rgt_not_eq. apply Rmult_lt_0_compat; [lra |].
    apply Rmult_lt_0_compat; exact Hs. }
  split; [exact Hpre | split; [exact Hr |]].
  destruct (correction_fuses Robot_landmark_range_bearing 0 0 1 origin [] []
              ahead at_origin Hpre Hr Hz Hd) as [Sinv [st' [_ [Hc _]]]].
  exists st'. exact Hc.
Defined.

(** C6: an observation with |range| < 1e-4 is passed over: the iteration
    leaves the mean and the covariance (and every other variable of the
    loop) as they are and reports nothing, so that a call with only this
    observation stores the prediction, and in any list the other
    observations are processed as if this one were not there. *)
Theorem update_skips_small_range (lrb : Landmark -> R -> R -> R -> R * R)
    (l : Landmark) :
  Rabs (Landmark.range l) < EPS ->
  (forall st, correct lrb l st = Finite st) /\
  (forall v w dt s,
     update lrb v w [l] dt s =
     Finite (mkEKF (MU (predict v w dt s)) (COV (predict v w dt s)) dt)) /\
  (forall v w dt s pre post,
     update lrb v w (pre ++ l :: post) dt s = update lrb v w (pre ++ post) dt s).
Proof.
  intros Hr.
  assert (Hskip : forall st, correct lrb l st = Finite st)
    by (intros st; apply correct_skip; lra).
  split; [exact Hskip |].
  split.
  - intros v w dt s. rewrite update_unfold. cbn [correction].
    rewrite Hskip. reflexivity.
  - intros v w dt s pre post.
    rewrite !update_unfold, !correction_app.
    destruct (correction lrb pre (predict v w dt s)) as [st |]; [| reflexivity].
    cbn [bind correction]. rewrite Hskip. reflexivity.
Qed.

Lemma update_skips_small_range_witness :
  Rabs (Landmark.range ahead_range_0) < EPS /\
  update Robot_landmark_range_bearing 0 0 [ahead_range_0] 1 origin
  = Finite (mkEKF (vec3 0 0 0) (zero 3 3) 1).
Proof.
  assert (Hr : Rabs (Landmark.range ahead_range_0) < EPS).
  { cbn [ahead_range_0 Landmark.range]. rewrite Rabs_R0. unfold EPS. lra. }
  split; [exact Hr |].
  rewrite (proj1 (proj2 (update_skips_small_range Robot_landmark_range_bearing
                           ahead_range_0 Hr))).
  unfold origin. rewrite predict_at_rest. reflexivity.
Defined.

(** C10: an observation whose range is negative, of magnitude above 1e-4,
    passes the test on |range| and is fused like any other: its noise is
    that of the positive range of the same magnitude, the innovation takes
    the negative range as observed, and mean and covariance are corrected
    by the gain.  Nothing in [update] checks that the range is not
    negative. *)
Theorem update_fuses_negative_range (lrb : Landmark -> R -> R -> R -> R * R)
    (v w dt : R) (s : EKF_localization) (pre post : list Landmark)
    (l : Landmark) (st : Locals) :
  correction lrb pre (predict v w dt s) = Finite st ->
  Landmark.range l < - EPS ->
  fst (expected lrb l st) <> 0 ->
  det2 (S_at lrb l st) <> 0 ->
  Rabs (Landmark.range l) > EPS /\
  measurement_noise l =
  diag2 (pow2 (Rabs (Landmark.range l) * DETECTION_RANGE_ALPHA))
        (pow2 DETECTION_ANGLE_SIGMA) /\
  exists (Sinv : Matrix 2 2) (st' : Locals),
    is_inverse2 (S_at lrb l st) Sinv /\
    correct lrb l st = Finite st' /\
    MU st' = fst (fusion lrb l (MU st) (COV st) Sinv) /\
    COV st' = snd (fusion lrb l (MU st) (COV st) Sinv) /\
    update lrb v w (pre ++ l :: post) dt s =
    (st2 <- correction lrb post st' ;; Finite (mkEKF (MU st2) (COV st2) dt)).
Proof.
  intros Hpre Hneg Hz Hd.
  pose proof EPS_pos as He.
  assert (Hr : Rabs (Landmark.range l) > EPS).
  { rewrite Rabs_left by lra. lra. }
  pose proof (reached_Q lrb v w dt pre s st Hpre) as Hq.
  split; [exact Hr |].
  split.
  { unfold measurement_noise, pow2. rewrite Rabs_left by lra.
    unfold diag2. tuple_eq; ring. }
  destruct (correct_regular lrb l st Hr Hq Hz Hd) as [Sinv [His Hc]].
  exists Sinv. eexists.
  split; [exact His |].
  split; [exact Hc |].
  split; [reflexivity |].
  split; [reflexivity |].
  rewrite (update_reaches lrb v w dt pre post l s st Hpre), Hc. reflexivity.
Qed.

Lemma update_fuses_negative_range_witness :
  Landmark.range ahead_negative < - EPS /\
  exists st', correct Robot_landmark_range_bearing ahead_negative at_origin = Finite st'.
Proof.
  assert (Hpre : correction Robot_landmark_range_bearing [] (predict 0 0 1 origin)
                 = Finite at_origin).
  { unfold origin. rewrite predict_at_rest. reflexivity. }
  assert (Hneg : Landmark.range ahead_negative < - EPS).
  { cbn [ahead_negative Landmark.range]. unfold EPS. lra. }
  assert (Hz : fst (expected Robot_landmark_range_bearing ahead_negative at_origin) <> 0).
  { unfold at_origin. rewrite (expected_ahead ahead_negative _ _ _ eq_refl eq_refl).
    cbn [fst]. lra. }
  assert (Hd : det2 (S_at Robot_landmark_range_bearing ahead_negative at_origin) <> 0).
  { rewrite (det_S_at_origin ahead_negative eq_refl eq_refl).
    pose proof DETECTION_ANGLE_SIGMA_pos as Hs.
    cbn [ahead_negative Landmark.range]. unfold pow2, DETECTION_RANGE_ALPHA.
    apply Rgt_not_eq. apply Rmult_lt_0_compat; [lra |].
    apply Rmult_lt_0_compat; exact Hs. }
  split; [exact Hneg |].
  destruct (update_fuses_negative_range Robot_landmark_range_bearing 0 0 1 origin
              [] [] ahead_negative at_origin Hpre Hneg Hz Hd)
    as [_ [_ [Sinv [st' [_ [Hc _]]]]]].
  exists st'. exact Hc.
Defined.

(** ** The stored heading *)

Lemma ROBOT_YAW_VEL_above_EPS : Rabs ROBOT_YAW_VEL > EPS.
Proof.
  unfold ROBOT_YAW_VEL, EPS. pose proof PI_RGT_0 as Hpi. pose proof PI2_3_2.
  rewrite Rabs_right by lra. lra.
Qed.

(** Without a fusion the stored heading is the predicted one, as it is. *)
Lemma update_nil_arc (lrb : Landmark -> R -> R -> R -> R * R) (v w dt : R)
    (s : EKF_localization) :
  Rabs w > EPS ->
  update lrb v w [] dt s =
  Finite (mkEKF (arc_motion dt (vec2 v w) (m_mu s))
                (propagate (arc_G v w dt (yaw s)) (arc_V v w dt (yaw s))
                           (motion_noise v w) (m_cov s)) dt).
Proof. intros Hw. rewrite update_nil, (predict_arc v w dt s Hw). reflexivity. Qed.

(** C4 fails on the code at the heading 3 with w = 2 and dt = 1: with no
    landmark, and likewise with one landmark that is skipped, the stored
    heading is 5, which is above pi. *)
Theorem update_leaves_heading_unwrapped (lrb : Landmark -> R -> R -> R -> R * R) :
  (exists s', update lrb 0 2 [] 1 heading_3 = Finite s' /\
              yaw s' = 5 /\ ~ wrapped (yaw s')) /\
  (exists s', update lrb 0 2 [ahead_range_0] 1 heading_3 = Finite s' /\
              yaw s' = 5 /\ ~ wrapped (yaw s')).
Proof.
  assert (Hw : Rabs 2 > EPS) by (rewrite Rabs_right by lra; unfold EPS; lra).
  assert (Hnil : exists s', update lrb 0 2 [] 1 heading_3 = Finite s' /\
                            yaw s' = 5 /\ ~ wrapped (yaw s')).
  { eexists. split; [apply (update_nil_arc lrb 0 2 1 heading_3 Hw) |].
    assert (Hy : yaw (mkEKF (arc_motion 1 (vec2 0 2) (m_mu heading_3))
                            (propagate (arc_G 0 2 1 (yaw heading_3))
                                       (arc_V 0 2 1 (yaw heading_3))
                                       (motion_noise 0 2) (m_cov heading_3)) 1) = 5).
    { cbv [yaw m_mu heading_3 set_state init_ekf origin arc_motion vec2 vec3
           vget vset tget tset fst snd]. ring. }
    split; [exact Hy |].
    rewrite Hy. unfold wrapped. pose proof PI_4. lra. }
  split; [exact Hnil |].
  destruct Hnil as [s' [Hu Hs']].
  exists s'. split; [| exact Hs'].
  rewrite <- Hu.
  assert (Hr : Rabs (Landmark.range ahead_range_0) <= EPS).
  { cbn [ahead_range_0 Landmark.range]. rewrite Rabs_R0. unfold EPS. lra. }
  rewrite update_unfold. cbn [correction].
  rewrite (correct_skip lrb ahead_range_0 _ Hr). reflexivity.
Qed.

(** ** Rotation in place *)

Lemma trace_rotation (w dt theta : R) (Sigma : Matrix 3 3) :
  w <> 0 ->
  trace (propagate (arc_G 0 w dt theta) (arc_V 0 w dt theta) (motion_noise 0 w) Sigma)
  = trace Sigma
    + pow2 ((- sin theta + sin (theta + w * dt)) / w) * pow2 (ALPHA2 * Rabs w)
    + pow2 ((cos theta - cos (theta + w * dt)) / w) * pow2 (ALPHA2 * Rabs w)
    + pow2 dt * pow2 (ALPHA4 * Rabs w).
Proof.
  intros Hw.
  destruct Sigma as [[a [b [c []]]] [[d [e [f []]]] [[g [h [i []]]] []]]].
  unfold propagate, arc_G, arc_V, motion_noise, diag2, pow2.
  rewrite Rabs_R0. mat_unfold. field. exact Hw.
Qed.

(** C9 fails on the code in its heading: turning in place (v = 0,
    w = ROBOT_YAW_VEL, dt = 1, no landmark) stores the heading yaw + w dt as
    it is, not wrapped into (-pi, pi]: from the heading 3 the stored heading
    3 + ROBOT_YAW_VEL is above pi, where [constrain_angle] of it is in
    (-pi, pi].  The rest of the claim holds for every state: x and y are
    kept, and the trace of the covariance grows, by (ALPHA4 w dt)^2. *)
Theorem pure_rotation (lrb : Landmark -> R -> R -> R -> R * R) :
  (forall s : EKF_localization,
     exists s',
       update lrb 0 ROBOT_YAW_VEL [] 1 s = Finite s' /\
       yaw s' = yaw s + ROBOT_YAW_VEL * 1 /\
       vget (m_mu s') 0 = vget (m_mu s) 0 /\
       vget (m_mu s') 1 = vget (m_mu s) 1 /\
       trace (m_cov s') = trace (m_cov s) + pow2 (ALPHA4 * ROBOT_YAW_VEL * 1) /\
       trace (m_cov s) < trace (m_cov s')) /\
  (exists s',
     update lrb 0 ROBOT_YAW_VEL [] 1 heading_3 = Finite s' /\
     yaw s' = 3 + ROBOT_YAW_VEL * 1 /\
     ~ wrapped (yaw s') /\
     wrapped (constrain_angle (3 + ROBOT_YAW_VEL * 1)) /\
     yaw s' <> constrain_angle (3 + ROBOT_YAW_VEL * 1)).
Proof.
  pose proof ROBOT_YAW_VEL_above_EPS as Hw.
  pose proof (above_EPS_nonzero _ Hw) as Hw0.
  assert (Hpos : 0 < ROBOT_YAW_VEL)
    by (unfold ROBOT_YAW_VEL; pose proof PI_RGT_0; lra).
  assert (Hgen : forall s : EKF_localization,
            exists s',
              update lrb 0 ROBOT_YAW_VEL [] 1 s = Finite s' /\
              yaw s' = yaw s + ROBOT_YAW_VEL * 1 /\
              vget (m_mu s') 0 = vget (m_mu s) 0 /\
              vget (m_mu s') 1 = vget (m_mu s) 1 /\
              trace (m_cov s') = trace (m_cov s) + pow2 (ALPHA4 * ROBOT_YAW_VEL * 1) /\
              trace (m_cov s) < trace (m_cov s')).
  { intros s.
    eexists. split; [apply (update_nil_arc lrb 0 ROBOT_YAW_VEL 1 s Hw) |].
    cbn [m_mu m_cov].
    split; [reflexivity |].
    split; [cbv [arc_motion vec2 vec3 vget tget fst snd]; field; exact Hw0 |].
    split; [cbv [arc_motion vec2 vec3 vget tget fst snd]; field; exact Hw0 |].
    assert (Ht : trace (propagate (arc_G 0 ROBOT_YAW_VEL 1 (yaw s))
                                  (arc_V 0 ROBOT_YAW_VEL 1 (yaw s))
                                  (motion_noise 0 ROBOT_YAW_VEL) (m_cov s))
                 = trace (m_cov s) + pow2 (ALPHA4 * ROBOT_YAW_VEL * 1)).
    { rewrite (trace_rotation _ _ _ _ Hw0).
      rewrite (Rabs_right ROBOT_YAW_VEL) by lra.
      unfold pow2, ALPHA2. ring. }
    split; [exact Ht |].
    rewrite Ht. unfold pow2, ALPHA4. nra. }
  split; [exact Hgen |].
  destruct (Hgen heading_3) as [s' [Hu [Hy _]]].
  assert (Hy3 : yaw s' = 3 + ROBOT_YAW_VEL * 1) by (rewrite Hy; reflexivity).
  exists s'. split; [exact Hu |]. split; [exact Hy3 |].
  pose proof PI_4 as Hpi4. pose proof PI2_3_2 as Hpi3.
  assert (Hout : PI < 3 + ROBOT_YAW_VEL * 1) by (unfold ROBOT_YAW_VEL; lra).
  assert (Hc : constrain_angle (3 + ROBOT_YAW_VEL * 1)
               = 3 + ROBOT_YAW_VEL * 1 - 2 * PI).
  { destruct (constrain_angle_cases (3 + ROBOT_YAW_VEL * 1))
      as [[Hc1 H] | [[Hc1 [Hc2 H]] | [Hc1 H]]]; [lra | exact H | lra]. }
  split; [rewrite Hy3; unfold wrapped; lra |].
  split; [rewrite Hc; unfold wrapped, ROBOT_YAW_VEL; lra |].
  rewrite Hy3, Hc. lra.
Qed.

(** ** The angle of a unit vector *)

Lemma atan_of_unit (x y : R) :
  0 < x -> x * x + y * y = 1 ->
  cos (atan (y / x)) = x /\ sin (atan (y / x)) = y.
Proof.
  intros Hx Hu.
  assert (Hs : sqrt (1 + (y / x)²) = / x).
  { apply sqrt_lem_1.
    - unfold Rsqr. nra.
    - left. apply Rinv_0_lt_compat. exact Hx.
    - unfold Rsqr.
      replace (1 + y / x * (y / x)) with ((x * x + y * y) * (/ x * / x))
        by (field; lra).
      rewrite Hu. ring. }
  rewrite cos_atan, sin_atan, Hs. split; field; lra.
Qed.

Lemma atan_of_unit_neg (x y : R) :
  x < 0 -> x * x + y * y = 1 ->
  cos (atan (y / x)) = - x /\ sin (atan (y / x)) = - y.
Proof.
  intros Hx Hu.
  assert (Hs : sqrt (1 + (y / x)²) = / - x).
  { apply sqrt_lem_1.
    - unfold Rsqr. nra.
    - left. apply Rinv_0_lt_compat. lra.
    - unfold Rsqr.
      replace (1 + y / x * (y / x)) with ((x * x + y * y) * (/ - x * / - x))
        by (field; lra).
      rewrite Hu. ring. }
  rewrite cos_atan, sin_atan, Hs. split; field; lra.
Qed.

Lemma atan2_direction (x y : R) :
  x * x + y * y = 1 -> cos (atan2 y x) = x /\ sin (atan2 y x) = y.
Proof.
  intros Hu. unfold atan2.
  destruct (Rlt_dec 0 x) as [Hpos | Hnpos].
  - exact (atan_of_unit x y Hpos Hu).
  - destruct (Rlt_dec x 0) as [Hneg | Hnneg].
    + destruct (atan_of_unit_neg x y Hneg Hu) as [Hc Hs].
      destruct (Rle_dec 0 y) as [Hy | Hy].
      * rewrite neg_cos, neg_sin, Hc, Hs. split; ring.
      * rewrite cos_minus, sin_minus, cos_PI, sin_PI, Hc, Hs. split; ring.
    + assert (Hx0 : x = 0) by lra. subst x.
      destruct (Rlt_dec 0 y) as [Hy | Hy].
      * rewrite cos_PI2, sin_PI2. split; [reflexivity | nra].
      * destruct (Rlt_dec y 0) as [Hy' | Hy'].
        -- rewrite cos_neg, sin_neg, cos_PI2, sin_PI2. split; [reflexivity | nra].
        -- assert (y = 0) by lra. subst y. lra.
Qed.

(** ** Eigenvalues and eigenvectors *)

(** An increasing pair of numbers is known from its sum and its product. *)
Lemma eigen_radius_half_gap (X : Matrix 2 2) (l0 l1 : R) :
  symmetric2 X ->
  l0 <= l1 ->
  l0 + l1 = mget X 0 0 + mget X 1 1 ->
  l0 * l1 = mget X 0 0 * mget X 1 1 - mget X 1 0 * mget X 0 1 ->
  eigen_radius X = (l1 - l0) / 2.
Proof.
  destruct X as [[a [b []]] [[b' [d []]] []]].
  unfold symmetric2, eigen_radius, pow2. cbv [mget tget tinit fst snd].
  intros Hsym Hle Hsum Hprod. subst b.
  apply sqrt_lem_1.
  - nra.
  - lra.
  - replace ((l1 - l0) / 2 * ((l1 - l0) / 2))
      with (((l0 + l1) * (l0 + l1) - 4 * (l0 * l1)) / 4) by field.
    rewrite Hsum, Hprod. field.
Qed.

(** The decomposition that the solver promises gives the two eigenvalues
    of the matrix, the smaller first. *)
Lemma eigen_decomposition_values (X : Matrix 2 2) (s : SelfAdjointEigenSolver) :
  symmetric2 X ->
  eigen_decomposition X s ->
  vget (eigenvalues s) 0 = eigenvalue_min X /\
  vget (eigenvalues s) 1 = eigenvalue_max X.
Proof.
  intros Hsym [Hle [[Hu0 He0] [[Hu1 He1] Hort]]].
  assert (Hsp : vget (eigenvalues s) 0 + vget (eigenvalues s) 1
                = mget X 0 0 + mget X 1 1 /\
                vget (eigenvalues s) 0 * vget (eigenvalues s) 1
                = mget X 0 0 * mget X 1 1 - mget X 1 0 * mget X 0 1).
  { destruct X as [[a [b []]] [[b' [d []]] []]].
    destruct s as [[l0 [l1 []]] [[p [r []]] [[q [t []]] []]]].
    unfold symmetric2 in Hsym. unfold scale in He0, He1.
    cbn [eigenvalues eigenvectors] in *.
    mat_unfold_in Hsym. mat_unfold_in Hu0. mat_unfold_in Hu1.
    mat_unfold_in He0. mat_unfold_in He1. mat_unfold_in Hort. mat_unfold.
    subst b'.
    injection He0 as He0x He0y. injection He1 as He1x He1y.
    rewrite Rplus_0_r in *.
    set (delta := p * t - q * r).
    assert (Hdd : delta * delta = 1).
    { replace (delta * delta)
        with ((p * p + q * q) * (r * r + t * t) - (p * r + q * t) * (p * r + q * t))
        by (unfold delta; ring).
      rewrite Hu0, Hu1, Hort. ring. }
    assert (Hr : r = - delta * q).
    { replace r with (r * (p * p + q * q) - p * (p * r + q * t)) at 1
        by (rewrite Hu0, Hort; ring).
      unfold delta. ring. }
    assert (Ht : t = delta * p).
    { replace t with (t * (p * p + q * q) - q * (p * r + q * t)) at 1
        by (rewrite Hu0, Hort; ring).
      unfold delta. ring. }
    assert (Hl0 : l0 = a * (p * p) + 2 * b * (p * q) + d * (q * q)).
    { replace l0 with (p * (l0 * p) + q * (l0 * q))
        by (replace l0 with (l0 * (p * p + q * q)) at 3 by (rewrite Hu0; ring); ring).
      rewrite <- He0x, <- He0y. ring. }
    assert (Hl1 : l1 = a * (q * q) - 2 * b * (p * q) + d * (p * p)).
    { replace l1 with (r * (l1 * r) + t * (l1 * t))
        by (replace l1 with (l1 * (r * r + t * t)) at 3 by (rewrite Hu1; ring); ring).
      rewrite <- He1x, <- He1y.
      replace (r * (a * r + b * t) + t * (b * r + d * t))
        with (a * (r * r) + 2 * b * (r * t) + d * (t * t)) by ring.
      replace (r * r) with (delta * delta * (q * q)) by (rewrite Hr at 1 2; ring).
      replace (t * t) with (delta * delta * (p * p)) by (rewrite Ht at 1 2; ring).
      replace (r * t) with (- (delta * delta) * (p * q)) by (rewrite Hr, Ht at 1; ring).
      rewrite Hdd. ring. }
    split.
    - rewrite Hl0, Hl1.
      replace (a + d) with ((a + d) * (p * p + q * q)) by (rewrite Hu0; ring).
      ring.
    - assert (Hdet : (a * d - b * b) * delta = l0 * l1 * delta).
      { replace ((a * d - b * b) * delta)
          with ((a * p + b * q) * (b * r + d * t) - (a * r + b * t) * (b * p + d * q))
          by (unfold delta; ring).
        rewrite He0x, He0y, He1x, He1y. unfold delta. ring. }
      replace (l0 * l1) with (l0 * l1 * delta * delta)
        by (rewrite Rmult_assoc, Hdd; ring).
      rewrite <- Hdet, Rmult_assoc, Hdd. ring. }
  destruct Hsp as [Hsum Hprod].
  pose proof (eigen_radius_half_gap X _ _ Hsym Hle Hsum Hprod) as Hrad.
  unfold eigenvalue_min, eigenvalue_max. rewrite Hrad. split; lra.
Qed.

Lemma psd2_eigenvalue (X : Matrix 2 2) (lambda : R) (u : Vec 2) :
  psd2 X -> is_unit_eigenvector X lambda u -> 0 <= lambda.
Proof.
  intros Hpsd [Hu He].
  pose proof (Hpsd u) as Hq. rewrite He in Hq.
  destruct u as [p [q []]].
  unfold scale in Hq. mat_unfold_in Hq. mat_unfold_in Hu.
  replace (p * (lambda * p) + (q * (lambda * q) + 0))
    with (lambda * (p * p + (q * q + 0))) in Hq by ring.
  rewrite Hu in Hq. lra.
Qed.

Lemma fsqrt_nonneg (a : R) : 0 <= a -> fsqrt a = Finite (sqrt a).
Proof.
  intros Ha. unfold fsqrt. destruct (Rlt_dec a 0) as [Hn | _]; [lra | reflexivity].
Qed.

Section EllipseFacts.

Variable solve : Matrix 2 2 -> SelfAdjointEigenSolver.

(** With the eigenvalues in increasing order the test [e0 > e1] fails, and
    the axes are read from the second eigenvalue and the second column. *)
Lemma ellipse_of_decomposition (X : Matrix 2 2) :
  psd2 X ->
  eigen_decomposition X (solve X) ->
  ellipse solve X =
  Finite (sqrt (vget (eigenvalues (solve X)) 1),
          sqrt (vget (eigenvalues (solve X)) 0),
          atan2 (mget (eigenvectors (solve X)) 1 1)
                (mget (eigenvectors (solve X)) 0 1)).
Proof.
  intros Hpsd [Hle [Hv0 [Hv1 _]]].
  pose proof (psd2_eigenvalue X _ _ Hpsd Hv0) as H0.
  pose proof (psd2_eigenvalue X _ _ Hpsd Hv1) as H1.
  unfold ellipse. cbv zeta.
  rewrite (fsqrt_nonneg _ H0), (fsqrt_nonneg _ H1). cbn [bind].
  pose proof (sqrt_le_1_alt _ _ Hle) as Hs.
  destruct (Rgt_dec (sqrt (vget (eigenvalues (solve X)) 0))
                    (sqrt (vget (eigenvalues (solve X)) 1))) as [Hgt | _];
    [lra | reflexivity].
Qed.

(** The angle that [ellipse] returns is the angle of the second column. *)
Lemma ellipse_angle (X : Matrix 2 2) :
  eigen_decomposition X (solve X) ->
  direction (atan2 (mget (eigenvectors (solve X)) 1 1)
                   (mget (eigenvectors (solve X)) 0 1))
  = col (eigenvectors (solve X)) 1.
Proof.
  intros [_ [_ [[Hu _] _]]].
  destruct (solve X) as [ls [[p [r []]] [[q [t []]] []]]].
  cbn [eigenvectors] in *. mat_unfold_in Hu. mat_unfold.
  rewrite Rplus_0_r in Hu.
  destruct (atan2_direction r t Hu) as [Hc Hs].
  unfold direction, vec2. rewrite Hc, Hs. reflexivity.
Qed.

End EllipseFacts.

(** *** The solver in closed form *)

Lemma eigen_radius_square (X : Matrix 2 2) :
  eigen_radius X * eigen_radius X
  = pow2 ((mget X 0 0 - mget X 1 1) / 2) + pow2 (mget X 1 0).
Proof.
  assert (Hsq : forall t : R, 0 <= t * t) by (intros t; nra).
  unfold eigen_radius. apply sqrt_sqrt. unfold pow2.
  apply Rplus_le_le_0_compat; apply Hsq.
Qed.

Lemma eigen_radius_nonneg (X : Matrix 2 2) : 0 <= eigen_radius X.
Proof. unfold eigen_radius. apply sqrt_pos. Qed.

Lemma closed_form_keeps_diagonal_basis : keeps_diagonal_basis closed_form_solver.
Proof.
  intros a d. unfold closed_form_solver, diag2. cbv [mget tget tinit fst snd].
  destruct (Req_dec_T 0 0) as [_ | Hn]; [| contradiction Hn; reflexivity].
  destruct (Rle_dec a d); reflexivity.
Qed.

Lemma closed_form_decomposition (X : Matrix 2 2) :
  symmetric2 X -> eigen_decomposition X (closed_form_solver X).
Proof.
  intros Hsym.
  pose proof (eigen_radius_square X) as Hrr.
  pose proof (eigen_radius_nonneg X) as Hr0.
  unfold closed_form_solver, eigenvalue_min, eigenvalue_max.
  destruct X as [[a [b' []]] [[b [d []]] []]].
  unfold symmetric2 in Hsym. mat_unfold_in Hsym. subst b'.
  set (rho := eigen_radius _) in *.
  unfold pow2 in Hrr. cbv [mget tget tinit fst snd] in Hrr.
  cbv [mget tget tinit fst snd].
  destruct (Req_dec_T b 0) as [Hb | Hb].
  - subst b.
    destruct (Rle_dec a d) as [Had | Had];
      unfold eigen_decomposition, is_unit_eigenvector, scale, exchange2;
      cbn [eigenvalues eigenvectors]; mat_unfold; cbv [vec2];
      (repeat split; [lra | ..]); tuple_eq; ring.
  - set (l0 := (a + d) / 2 - rho). set (l1 := (a + d) / 2 + rho).
    assert (Hsq : forall t : R, 0 <= t * t) by (intros t; nra).
    assert (Hbb : 0 < b * b)
      by (destruct (Rtotal_order b 0) as [Hlt | [Heq | Hgt]]; [nra | contradiction | nra]).
    assert (Hn0 : 0 < b * b + (l0 - a) * (l0 - a))
      by (pose proof (Hsq (l0 - a)); lra).
    assert (Hn1 : 0 < b * b + (l1 - a) * (l1 - a))
      by (pose proof (Hsq (l1 - a)); lra).
    pose proof (sqrt_lt_R0 _ Hn0) as Hs0. pose proof (sqrt_lt_R0 _ Hn1) as Hs1.
    pose proof (sqrt_sqrt _ (Rlt_le _ _ Hn0)) as Hq0.
    pose proof (sqrt_sqrt _ (Rlt_le _ _ Hn1)) as Hq1.
    set (n0 := sqrt (b * b + (l0 - a) * (l0 - a))) in *.
    set (n1 := sqrt (b * b + (l1 - a) * (l1 - a))) in *.
    assert (Hc0 : b * b + d * (l0 - a) = l0 * (l0 - a)).
    { unfold l0. apply Rminus_diag_uniq.
      transitivity ((a - d) / 2 * ((a - d) / 2) + b * b - rho * rho);
        [field | rewrite Hrr; ring]. }
    assert (Hc1 : b * b + d * (l1 - a) = l1 * (l1 - a)).
    { unfold l1. apply Rminus_diag_uniq.
      transitivity ((a - d) / 2 * ((a - d) / 2) + b * b - rho * rho);
        [field | rewrite Hrr; ring]. }
    assert (Hort : b * b + (l0 - a) * (l1 - a) = 0).
    { unfold l0, l1.
      transitivity ((a - d) / 2 * ((a - d) / 2) + b * b - rho * rho);
        [field | rewrite Hrr; ring]. }
    unfold eigen_decomposition, is_unit_eigenvector, scale.
    cbn [eigenvalues eigenvectors]. mat_unfold. cbv [vec2].
    split; [unfold l0, l1; lra |].
    split; [split |].
    + replace (b / n0 * (b / n0) + ((l0 - a) / n0 * ((l0 - a) / n0) + 0))
        with ((b * b + (l0 - a) * (l0 - a)) / (n0 * n0)) by (field; lra).
      rewrite Hq0. field. lra.
    + tuple_eq.
      * field. lra.
      * replace (b * (b / n0) + (d * ((l0 - a) / n0) + 0))
          with ((b * b + d * (l0 - a)) / n0) by (field; lra).
        rewrite Hc0. field. lra.
    + split; [split |].
      * replace (b / n1 * (b / n1) + ((l1 - a) / n1 * ((l1 - a) / n1) + 0))
          with ((b * b + (l1 - a) * (l1 - a)) / (n1 * n1)) by (field; lra).
        rewrite Hq1. field. lra.
      * tuple_eq.
        -- field. lra.
        -- replace (b * (b / n1) + (d * ((l1 - a) / n1) + 0))
             with ((b * b + d * (l1 - a)) / n1) by (field; lra).
           rewrite Hc1. field. lra.
      * replace (b / n0 * (b / n1) + ((l0 - a) / n0 * ((l1 - a) / n1) + 0))
          with ((b * b + (l0 - a) * (l1 - a)) / (n0 * n1)) by (field; lra).
        rewrite Hort. field. lra.
Qed.

Lemma closed_form_eigenvalues (X : Matrix 2 2) :
  symmetric2 X ->
  is_eigenvalue X (eigenvalue_min X) /\ is_eigenvalue X (eigenvalue_max X) /\
  eigenvalue_min X <= eigenvalue_max X.
Proof.
  intros Hsym.
  pose proof (eigen_radius_square X) as Hrr.
  pose proof (eigen_radius_nonneg X) as Hr0.
  unfold is_eigenvalue, eigenvalue_min, eigenvalue_max.
  destruct X as [[a [b' []]] [[b [d []]] []]].
  unfold symmetric2 in Hsym. mat_unfold_in Hsym. subst b'.
  set (rho := eigen_radius _) in *.
  unfold pow2 in Hrr. cbv [mget tget tinit fst snd] in Hrr.
  cbv [mget tget tinit fst snd].
  split; [| split; [| lra]].
  - transitivity (rho * rho - ((a - d) / 2 * ((a - d) / 2) + b * b));
      [field | rewrite Hrr; ring].
  - transitivity (rho * rho - ((a - d) / 2 * ((a - d) / 2) + b * b));
      [field | rewrite Hrr; ring].
Qed.

Lemma eigenvalues_diag2 (a d : R) :
  a <= d ->
  eigenvalue_min (diag2 a d) = a /\ eigenvalue_max (diag2 a d) = d /\
  eigenvalue_min (diag2 d a) = a /\ eigenvalue_max (diag2 d a) = d.
Proof.
  intros Had.
  assert (H1 : eigen_radius (diag2 a d) = (d - a) / 2).
  { unfold eigen_radius, diag2, pow2. cbv [mget tget tinit fst snd].
    apply sqrt_lem_1; [nra | lra | field]. }
  assert (H2 : eigen_radius (diag2 d a) = (d - a) / 2).
  { unfold eigen_radius, diag2, pow2. cbv [mget tget tinit fst snd].
    apply sqrt_lem_1; [nra | lra | field]. }
  unfold eigenvalue_min, eigenvalue_max. rewrite H1, H2.
  unfold diag2. cbv [mget tget tinit fst snd]. repeat split; field.
Qed.

Lemma atan2_up : atan2 1 0 = PI / 2.
Proof.
  unfold atan2.
  destruct (Rlt_dec 0 0) as [H | _]; [lra |].
  destruct (Rlt_dec 0 1) as [_ | H]; [reflexivity | lra].
Qed.

Lemma sqrt_4 : sqrt 4 = 2.
Proof. apply sqrt_lem_1; lra. Qed.

Lemma psd2_diag2 (a d : R) : 0 <= a -> 0 <= d -> psd2 (diag2 a d).
Proof.
  intros Ha Hd [p [q []]]. unfold diag2. mat_unfold.
  assert (Hsq : forall t : R, 0 <= t * t) by (intros t; nra).
  pose proof (Hsq p). pose proof (Hsq q). nra.
Qed.

(** C8: for a symmetric positive semi-definite matrix, [ellipse] returns
    the square roots of the two eigenvalues, the larger as major axis, and
    as orientation the angle of a unit eigenvector of the larger eigenvalue;
    for diag(4, 1) it returns (2, 1, 0) and for diag(1, 4) it returns
    (2, 1, pi/2).  The solver is Eigen's, taken with what Eigen documents of
    it and with what its iteration does on a diagonal matrix. *)
Theorem ellipse_axes (solve : Matrix 2 2 -> SelfAdjointEigenSolver)
    (X : Matrix 2 2) :
  (forall Y, symmetric2 Y -> eigen_decomposition Y (solve Y)) ->
  keeps_diagonal_basis solve ->
  symmetric2 X ->
  psd2 X ->
  (exists major minor theta : R,
     ellipse solve X = Finite (major, minor, theta) /\
     is_eigenvalue X (eigenvalue_min X) /\
     is_eigenvalue X (eigenvalue_max X) /\
     eigenvalue_min X <= eigenvalue_max X /\
     major = sqrt (eigenvalue_max X) /\
     minor = sqrt (eigenvalue_min X) /\
     minor <= major /\
     is_unit_eigenvector X (eigenvalue_max X) (direction theta)) /\
  ellipse solve (diag2 4 1) = Finite (2, 1, 0) /\
  ellipse solve (diag2 1 4) = Finite (2, 1, PI / 2).
Proof.
  intros Hsolve Hdiag Hsym Hpsd.
  split; [| split].
  - pose proof (Hsolve X Hsym) as Hdec.
    destruct (eigen_decomposition_values X _ Hsym Hdec) as [Hmin Hmax].
    destruct (closed_form_eigenvalues X Hsym) as [He0 [He1 Hle]].
    do 3 eexists.
    split; [apply (ellipse_of_decomposition solve X Hpsd Hdec) |].
    split; [exact He0 |]. split; [exact He1 |]. split; [exact Hle |].
    split; [rewrite Hmax; reflexivity |].
    split; [rewrite Hmin; reflexivity |].
    split; [rewrite Hmin, Hmax; apply sqrt_le_1_alt; exact Hle |].
    rewrite (ellipse_angle solve X Hdec), <- Hmax.
    destruct Hdec as [_ [_ [Hv1 _]]]. exact Hv1.
  - assert (Hs : symmetric2 (diag2 4 1)) by reflexivity.
    pose proof (Hsolve _ Hs) as Hdec.
    rewrite (ellipse_of_decomposition solve _ (psd2_diag2 4 1 ltac:(lra) ltac:(lra)) Hdec).
    destruct (eigen_decomposition_values _ _ Hs Hdec) as [Hmin Hmax].
    destruct (eigenvalues_diag2 1 4 ltac:(lra)) as [_ [_ [Hmin' Hmax']]].
    rewrite Hmin, Hmax, Hmin', Hmax', (Hdiag 4 1).
    destruct (Rle_dec 4 1) as [Hle | _]; [lra |].
    unfold exchange2. cbv [mget tget tinit fst snd].
    rewrite sqrt_4, sqrt_1, atan2_ahead. reflexivity.
  - assert (Hs : symmetric2 (diag2 1 4)) by reflexivity.
    pose proof (Hsolve _ Hs) as Hdec.
    rewrite (ellipse_of_decomposition solve _ (psd2_diag2 1 4 ltac:(lra) ltac:(lra)) Hdec).
    destruct (eigen_decomposition_values _ _ Hs Hdec) as [Hmin Hmax].
    destruct (eigenvalues_diag2 1 4 ltac:(lra)) as [Hmin' [Hmax' _]].
    rewrite Hmin, Hmax, Hmin', Hmax', (Hdiag 1 4).
    destruct (Rle_dec 1 4) as [_ | Hn]; [| lra].
    cbv [identity mget tget tinit fst snd Nat.eqb].
    rewrite sqrt_4, sqrt_1, atan2_up. reflexivity.
Qed.

Lemma ellipse_axes_witness :
  symmetric2 (diag2 4 1) /\ psd2 (diag2 4 1) /\
  ellipse closed_form_solver (diag2 4 1) = Finite (2, 1, 0) /\
  ellipse closed_form_solver (diag2 1 4) = Finite (2, 1, PI / 2).
Proof.
  assert (Hs : symmetric2 (diag2 4 1)) by reflexivity.
  assert (Hp : psd2 (diag2 4 1)) by (apply psd2_diag2; lra).
  split; [exact Hs | split; [exact Hp |]].
  exact (proj2 (ellipse_axes closed_form_solver (diag2 4 1)
                  closed_form_decomposition closed_form_keeps_diagonal_basis
                  Hs Hp)).
Defined.

(** ** When the innovation covariance is regular

    A singular S needs a covariance that is not positive semi-definite:
    for a symmetric positive semi-definite covariance and an observation
    that passes the range test, the determinant of S is positive. *)

Lemma psd2_det_nonneg (A : Matrix 2 2) :
  symmetric2 A -> psd2 A -> 0 <= det2 A.
Proof.
  destruct A as [[a [b []]] [[b' [d []]] []]].
  unfold symmetric2, det2. cbv [mget tget tinit fst snd].
  intros Hsym Hpsd. subst b'.
  pose proof (Hpsd (vec2 d (- b))) as H1.
  pose proof (Hpsd (vec2 (- b) a)) as H2.
  pose proof (Hpsd (vec2 1 1)) as H3.
  pose proof (Hpsd (vec2 1 (-1))) as H4.
  pose proof (Hpsd (vec2 1 0)) as H5.
  pose proof (Hpsd (vec2 0 1)) as H6.
  cbv [vec2] in *. mat_unfold_in H1. mat_unfold_in H2. mat_unfold_in H3.
  mat_unfold_in H4. mat_unfold_in H5. mat_unfold_in H6.
  destruct (Rle_lt_dec a 0) as [Ha | Ha].
  - destruct (Rle_lt_dec d 0) as [Hd | Hd].
    + assert (a = 0) by lra. assert (d = 0) by lra. subst a d.
      assert (b = 0) by lra. subst b. lra.
    + assert (0 <= d * (a * d - b * b)) by lra. nra.
  - assert (0 <= a * (a * d - b * b)) by lra. nra.
Qed.

Lemma psd_congruence (Hm : Matrix 2 3) (Sigma : Matrix 3 3) :
  symmetric3 Sigma -> psd3 Sigma ->
  symmetric2 (Hm *m Sigma *m transpose Hm) /\
  psd2 (Hm *m Sigma *m transpose Hm).
Proof.
  intros Hsym Hpsd.
  destruct Hm as [[h00 [h01 [h02 []]]] [[h10 [h11 [h12 []]]] []]].
  destruct Sigma as [[a [b [c []]]] [[d [e [f []]]] [[g [h [i []]]] []]]].
  unfold symmetric3 in Hsym. mat_unfold_in Hsym.
  injection Hsym as Hd Hg Hb Hh Hc Hf. subst d g h.
  split.
  - unfold symmetric2. mat_unfold. ring.
  - intros [p [q []]].
    pose proof (Hpsd (vec3 (h00 * p + h10 * q) (h01 * p + h11 * q)
                           (h02 * p + h12 * q))) as Hq.
    cbv [vec3] in Hq. mat_unfold_in Hq. mat_unfold.
    eapply Rle_trans; [exact Hq |]. right. ring.
Qed.

Lemma S_regular_of_psd (lrb : Landmark -> R -> R -> R -> R * R)
    (l : Landmark) (st : Locals) :
  symmetric3 (COV st) -> psd3 (COV st) ->
  Rabs (Landmark.range l) > EPS ->
  0 < det2 (S_at lrb l st).
Proof.
  intros Hsym Hpsd Hr.
  unfold S_at, innovation_covariance.
  destruct (psd_congruence
              (measurement_jacobian l (MU st) (fst (expected lrb l st)))
              (COV st) Hsym Hpsd) as [HsA HpA].
  pose proof (psd2_det_nonneg _ HsA HpA) as Hdet.
  pose proof (HpA (vec2 1 0)) as H00. pose proof (HpA (vec2 0 1)) as H11.
  set (A := measurement_jacobian l (MU st) (fst (expected lrb l st)) *m COV st
            *m transpose (measurement_jacobian l (MU st) (fst (expected lrb l st)))) in *.
  clearbody A. clear HpA.
  destruct A as [[a [b []]] [[b' [d []]] []]].
  unfold symmetric2 in HsA. unfold det2 in *. unfold measurement_noise, diag2, pow2.
  cbv [vec2] in *. mat_unfold_in HsA. mat_unfold_in Hdet. mat_unfold_in H00.
  mat_unfold_in H11. mat_unfold. subst b'.
  pose proof DETECTION_ANGLE_SIGMA_pos as Hs.
  assert (Hq1 : 0 < DETECTION_ANGLE_SIGMA * DETECTION_ANGLE_SIGMA) by nra.
  assert (Hq0 : 0 < Landmark.range l * DETECTION_RANGE_ALPHA
                    * (Landmark.range l * DETECTION_RANGE_ALPHA)).
  { assert (Hne : Landmark.range l <> 0).
    { intros Hz. rewrite Hz, Rabs_R0 in Hr. pose proof EPS_pos. lra. }
    unfold DETECTION_RANGE_ALPHA.
    destruct (Rtotal_order (Landmark.range l) 0) as [Hlt | [Heq | Hgt]];
      [nra | contradiction | nra]. }
  set (q0 := Landmark.range l * DETECTION_RANGE_ALPHA
             * (Landmark.range l * DETECTION_RANGE_ALPHA)) in *.
  set (q1 := DETECTION_ANGLE_SIGMA * DETECTION_ANGLE_SIGMA) in *.
  nra.
Qed.

(** * Further properties of the code *)

(** ** constrain_angle *)

(** X1: [constrain_angle] is odd: the wrapped opposite angle is the
    opposite of the wrapped angle, for every angle. *)
Theorem constrain_angle_odd (theta : R) :
  constrain_angle (- theta) = - constrain_angle theta.
Proof.
  destruct (constrain_angle_cases theta) as [[Hc H] | [[Hc1 [Hc2 H]] | [Hc H]]];
    destruct (constrain_angle_cases (- theta))
      as [[Hd H'] | [[Hd1 [Hd2 H']] | [Hd H']]];
    rewrite H, H'; pose proof PI_RGT_0; lra.
Qed.

(** X2: wrapping keeps the direction: the sine and the cosine of the
    wrapped angle are those of the angle, for every angle. *)
Theorem constrain_angle_direction (theta : R) :
  sin (constrain_angle theta) = sin theta /\
  cos (constrain_angle theta) = cos theta.
Proof.
  destruct (constrain_angle_cases theta) as [[_ H] | [[_ [_ H]] | [_ H]]];
    rewrite H.
  - rewrite sin_plus, cos_plus, sin_2PI, cos_2PI. split; ring.
  - rewrite sin_minus, cos_minus, sin_2PI, cos_2PI. split; ring.
  - split; reflexivity.
Qed.

(** X3: [constrain_angle] moves its argument by one turn at most, so that
    its result lies in [-pi, pi] exactly when the argument lies in
    [-3 pi, 3 pi]: an angle further out stays outside. *)
Theorem constrain_angle_one_turn (theta : R) :
  (constrain_angle theta = theta \/
   constrain_angle theta = theta + 2 * PI \/
   constrain_angle theta = theta - 2 * PI) /\
  (wrapped_closed (constrain_angle theta) <-> - 3 * PI <= theta <= 3 * PI).
Proof.
  pose proof PI_RGT_0 as Hpi. unfold wrapped_closed.
  destruct (constrain_angle_cases theta) as [[Hc H] | [[Hc1 [Hc2 H]] | [Hc H]]];
    rewrite H; (split; [tauto | split; intros; lra]).
Qed.

(** ** init_ekf and set_state *)

(** X4: [set_state] writes the three components of the mean and nothing
    else: the covariance is kept, a later [set_state] replaces an earlier
    one, and it commutes with [init_ekf], which zeroes the covariance and
    keeps the mean. *)
Theorem set_state_init_ekf (x0 y0 yaw0 x1 y1 yaw1 : R) (s : EKF_localization) :
  m_mu (set_state x0 y0 yaw0 s) = vec3 x0 y0 yaw0 /\
  yaw (set_state x0 y0 yaw0 s) = yaw0 /\
  m_cov (set_state x0 y0 yaw0 s) = m_cov s /\
  set_state x0 y0 yaw0 (set_state x1 y1 yaw1 s) = set_state x0 y0 yaw0 s /\
  m_mu (init_ekf s) = m_mu s /\
  m_cov (init_ekf (set_state x0 y0 yaw0 s)) = zero 3 3 /\
  init_ekf (set_state x0 y0 yaw0 s) = set_state x0 y0 yaw0 (init_ekf s).
Proof.
  destruct s as [[px [py [th []]]] Sigma d].
  repeat split; reflexivity.
Qed.

(** ** Prediction *)

(** The covariance of the prediction is a propagation in both branches,
    with matrices whose last rows are (0, 0, 1) and (0, dt). *)
Lemma predict_propagates (v w dt : R) (s : EKF_localization) :
  exists (G : Matrix 3 3) (V : Matrix 3 2),
    COV (predict v w dt s) = propagate G V (motion_noise v w) (m_cov s) /\
    mget G 2 0 = 0 /\ mget G 2 1 = 0 /\ mget G 2 2 = 1 /\
    mget V 2 0 = 0 /\ mget V 2 1 = dt.
Proof.
  destruct (Rgt_dec (Rabs w) EPS) as [Hw | Hw].
  - rewrite (predict_arc v w dt s Hw). do 2 eexists.
    split; [reflexivity | repeat split; reflexivity].
  - rewrite (predict_line v w dt s) by lra. do 2 eexists.
    split; [reflexivity | repeat split; reflexivity].
Qed.

Lemma propagate_quadratic_form (G : Matrix 3 3) (V : Matrix 3 2) (m0 m1 : R)
    (Sigma : Matrix 3 3) (u : Vec 3) :
  dot u (propagate G V (diag2 m0 m1) Sigma *v u)
  = dot (transpose G *v u) (Sigma *v (transpose G *v u))
    + (m0 * pow2 (vget (transpose V *v u) 0) + m1 * pow2 (vget (transpose V *v u) 1)).
Proof.
  destruct G as [[g00 [g01 [g02 []]]] [[g10 [g11 [g12 []]]] [[g20 [g21 [g22 []]]] []]]].
  destruct V as [[v00 [v01 []]] [[v10 [v11 []]] [[v20 [v21 []]] []]]].
  destruct Sigma as [[a [b [c []]]] [[d [e [f []]]] [[g [h [i []]]] []]]].
  destruct u as [u0 [u1 [u2 []]]].
  unfold propagate, diag2, pow2. mat_unfold. ring.
Qed.

Lemma propagate_symmetric (G : Matrix 3 3) (V : Matrix 3 2) (m0 m1 : R)
    (Sigma : Matrix 3 3) :
  symmetric3 Sigma -> symmetric3 (propagate G V (diag2 m0 m1) Sigma).
Proof.
  intros Hsym.
  destruct G as [[g00 [g01 [g02 []]]] [[g10 [g11 [g12 []]]] [[g20 [g21 [g22 []]]] []]]].
  destruct V as [[v00 [v01 []]] [[v10 [v11 []]] [[v20 [v21 []]] []]]].
  destruct Sigma as [[a [b [c []]]] [[d [e [f []]]] [[g [h [i []]]] []]]].
  unfold symmetric3 in *. mat_unfold_in Hsym.
  injection Hsym as Hd Hg Hb Hh Hc Hf. subst d g h.
  unfold propagate, diag2. mat_unfold. tuple_eq; ring.
Qed.

Lemma pow2_nonneg (a : R) : 0 <= pow2 a.
Proof. unfold pow2. nra. Qed.

Lemma predict_covariance_ok (v w dt : R) (s : EKF_localization) :
  covariance_ok (m_cov s) -> covariance_ok (COV (predict v w dt s)).
Proof.
  intros [Hsym Hpsd].
  destruct (predict_propagates v w dt s) as [G [V [Hp _]]].
  rewrite Hp. unfold motion_noise. split.
  - apply propagate_symmetric. exact Hsym.
  - intros u. rewrite propagate_quadratic_form.
    pose proof (Hpsd (transpose G *v u)) as Hq.
    pose proof (pow2_nonneg (ALPHA1 * Rabs v + ALPHA2 * Rabs w)) as Hm0.
    pose proof (pow2_nonneg (ALPHA3 * Rabs v + ALPHA4 * Rabs w)) as Hm1.
    pose proof (pow2_nonneg (vget (transpose V *v u) 0)) as Hy0.
    pose proof (pow2_nonneg (vget (transpose V *v u) 1)) as Hy1.
    nra.
Qed.

(** X5: the prediction keeps a covariance as it should be: from a
    symmetric positive semi-definite covariance it computes a symmetric
    positive semi-definite one, in both branches and for every input. *)
Theorem predict_keeps_covariance (v w dt : R) (s : EKF_localization) :
  covariance_ok (m_cov s) -> covariance_ok (COV (predict v w dt s)).
Proof. exact (predict_covariance_ok v w dt s). Qed.

Lemma zero_covariance_ok : covariance_ok (zero 3 3).
Proof.
  split; [reflexivity |].
  intros [u0 [u1 [u2 []]]]. mat_unfold. lra.
Qed.

Lemma predict_keeps_covariance_witness :
  covariance_ok (m_cov origin) /\ covariance_ok (COV (predict 1 1 1 origin)).
Proof.
  assert (H : covariance_ok (m_cov origin)) by exact zero_covariance_ok.
  split; [exact H | exact (predict_keeps_covariance 1 1 1 origin H)].
Defined.

(** X6: the prediction adds dt^2 (ALPHA3 |v| + ALPHA4 |w|)^2 to the
    variance of the heading, in both branches: the heading variance never
    decreases in a prediction, whatever the covariance was. *)
Theorem predict_heading_variance (v w dt : R) (s : EKF_localization) :
  mget (COV (predict v w dt s)) 2 2
  = mget (m_cov s) 2 2 + dt * dt * pow2 (ALPHA3 * Rabs v + ALPHA4 * Rabs w) /\
  mget (m_cov s) 2 2 <= mget (COV (predict v w dt s)) 2 2.
Proof.
  assert (Heq : mget (COV (predict v w dt s)) 2 2
                = mget (m_cov s) 2 2
                  + dt * dt * pow2 (ALPHA3 * Rabs v + ALPHA4 * Rabs w)).
  { destruct (predict_propagates v w dt s)
      as [G [V [Hp [Hg0 [Hg1 [Hg2 [Hv0 Hv1]]]]]]].
    rewrite Hp.
    destruct G as [[g00 [g01 [g02 []]]] [[g10 [g11 [g12 []]]] [[g20 [g21 [g22 []]]] []]]].
    destruct V as [[v00 [v01 []]] [[v10 [v11 []]] [[v20 [v21 []]] []]]].
    cbv [mget tget tinit fst snd] in Hg0, Hg1, Hg2, Hv0, Hv1. subst.
    destruct (m_cov s) as [[a [b [c []]]] [[d [e [f []]]] [[g [h [i []]]] []]]].
    unfold propagate, motion_noise, diag2. mat_unfold. ring. }
  split; [exact Heq |].
  rewrite Heq.
  pose proof (pow2_nonneg (ALPHA3 * Rabs v + ALPHA4 * Rabs w)).
  assert (0 <= dt * dt) by nra. nra.
Qed.

(** X7: the prediction does not depend on where the robot is: moving the
    prior mean by a vector moves the predicted mean by the same vector and
    leaves the predicted covariance as it is. *)
Theorem predict_translation (v w dt a b : R) (s : EKF_localization) :
  let s' := mkEKF (translate a b (m_mu s)) (m_cov s) (m_dt s) in
  MU (predict v w dt s') = translate a b (MU (predict v w dt s)) /\
  COV (predict v w dt s') = COV (predict v w dt s).
Proof.
  destruct s as [[px [py [th []]]] Sigma d]. cbv zeta.
  destruct (Rgt_dec (Rabs w) EPS) as [Hw | Hw].
  - rewrite !(predict_arc v w dt _ Hw). cbn [MU COV m_mu m_cov]. split.
    + cbv [translate arc_motion vec2 vec3 vget tget fst snd]. tuple_eq; ring.
    + reflexivity.
  - rewrite !(predict_line v w dt _) by lra. cbn [MU COV m_mu m_cov]. split.
    + cbv [translate line_motion vec2 vec3 vget tget fst snd]. tuple_eq; ring.
    + reflexivity.
Qed.

(** X8: a robot at rest keeps its belief: with v = 0, w = 0 and no
    landmark, [update] stores the mean and the covariance it found, for
    every dt and every state; only the time step is recorded. *)
Theorem update_at_rest (lrb : Landmark -> R -> R -> R -> R * R) (dt : R)
    (s : EKF_localization) :
  update lrb 0 0 [] dt s = Finite (mkEKF (m_mu s) (m_cov s) dt).
Proof.
  rewrite update_nil.
  rewrite predict_line by (rewrite Rabs_R0; pose proof EPS_pos; lra).
  destruct s as [[px [py [th []]]]
                 [[a [b [c []]]] [[d [e [f []]]] [[g [h [i []]]] []]]] d0].
  unfold propagate, motion_noise, line_motion, line_G, line_V, diag2, yaw, pow2.
  cbn [MU COV m_mu m_cov]. rewrite Rabs_R0. mat_unfold. cbv [vec2 vec3].
  do 2 f_equal; tuple_eq; ring.
Qed.

(** ** The landmark loop *)

(** X9: the range test is strict: every observation with |range| <= 1e-4,
    the threshold included, is passed over, and a call whose observations
    are all of this kind stores the prediction, as a call without landmark
    does. *)
Theorem update_skips_all (lrb : Landmark -> R -> R -> R -> R * R)
    (v w dt : R) (landmarks : list Landmark) (s : EKF_localization) :
  Forall (fun l => Rabs (Landmark.range l) <= EPS) landmarks ->
  update lrb v w landmarks dt s = update lrb v w [] dt s.
Proof.
  intros Hall. rewrite !update_unfold.
  assert (Hc : forall st, correction lrb landmarks st = Finite st).
  { induction Hall as [| l rest Hl _ IH]; intros st.
    - reflexivity.
    - cbn [correction]. rewrite (correct_skip lrb l st Hl). cbn [bind]. apply IH. }
  rewrite Hc. reflexivity.
Qed.

Lemma update_skips_all_witness :
  Forall (fun l => Rabs (Landmark.range l) <= EPS) [ahead_at_EPS; ahead_range_0] /\
  update Robot_landmark_range_bearing 1 1 [ahead_at_EPS; ahead_range_0] 1 origin
  = update Robot_landmark_range_bearing 1 1 [] 1 origin.
Proof.
  assert (H : Forall (fun l => Rabs (Landmark.range l) <= EPS)
                     [ahead_at_EPS; ahead_range_0]).
  { pose proof EPS_pos as He.
    apply Forall_cons; [| apply Forall_cons; [| apply Forall_nil]];
      unfold ahead_at_EPS, ahead_range_0; cbn [Landmark.range].
    - rewrite Rabs_right by lra. lra.
    - rewrite Rabs_R0. lra. }
  split; [exact H |].
  exact (update_skips_all Robot_landmark_range_bearing 1 1 1 _ origin H).
Defined.

(** *** The quadratic forms of a fusion *)

Lemma fusion_form_gain (Hm : Matrix 2 3) (Sigma : Matrix 3 3) (Sinv : Matrix 2 2)
    (u : Vec 3) :
  symmetric3 Sigma ->
  dot u (((identity 3 -m (Sigma *m transpose Hm *m Sinv) *m Hm) *m Sigma) *v u)
  = dot u (Sigma *v u)
    - dot (Hm *v (Sigma *v u)) (Sinv *v (Hm *v (Sigma *v u))).
Proof.
  intros Hsym.
  destruct Hm as [[h00 [h01 [h02 []]]] [[h10 [h11 [h12 []]]] []]].
  destruct Sigma as [[a [b [c []]]] [[d [e [f []]]] [[g [h [i []]]] []]]].
  destruct Sinv as [[s00 [s01 []]] [[s10 [s11 []]] []]].
  destruct u as [u0 [u1 [u2 []]]].
  unfold symmetric3 in Hsym. mat_unfold_in Hsym.
  injection Hsym as Hd Hg Hb Hh Hc Hf. subst d g h.
  mat_unfold. ring.
Qed.

Lemma fusion_form_residual (Hm : Matrix 2 3) (Sigma : Matrix 3 3) (Qm : Matrix 2 2)
    (z : Vec 2) (u : Vec 3) :
  symmetric3 Sigma ->
  dot (u -v transpose Hm *v z) (Sigma *v (u -v transpose Hm *v z))
  + dot z (Qm *v z)
  = dot u (Sigma *v u)
    - 2 * dot z (Hm *v (Sigma *v u))
    + dot z (innovation_covariance Hm Sigma Qm *v z).
Proof.
  intros Hsym.
  destruct Hm as [[h00 [h01 [h02 []]]] [[h10 [h11 [h12 []]]] []]].
  destruct Sigma as [[a [b [c []]]] [[d [e [f []]]] [[g [h [i []]]] []]]].
  destruct Qm as [[q00 [q01 []]] [[q10 [q11 []]] []]].
  destruct z as [z0 [z1 []]].
  destruct u as [u0 [u1 [u2 []]]].
  unfold symmetric3 in Hsym. mat_unfold_in Hsym.
  injection Hsym as Hd Hg Hb Hh Hc Hf. subst d g h.
  unfold innovation_covariance. mat_unfold. ring.
Qed.

Lemma inverse2_applied (S Sinv : Matrix 2 2) (y : Vec 2) :
  is_inverse2 S Sinv -> S *v (Sinv *v y) = y.
Proof.
  intros [Hri _].
  destruct S as [[a [b []]] [[c [d []]] []]].
  destruct Sinv as [[p [q []]] [[r [t []]] []]].
  destruct y as [y0 [y1 []]].
  mat_unfold_in Hri. injection Hri as H00 H01 H10 H11.
  mat_unfold. tuple_eq.
  - replace (a * (p * y0 + (q * y1 + 0)) + (b * (r * y0 + (t * y1 + 0)) + 0))
      with ((a * p + (b * r + 0)) * y0 + (a * q + (b * t + 0)) * y1) by ring.
    rewrite H00, H01. ring.
  - replace (c * (p * y0 + (q * y1 + 0)) + (d * (r * y0 + (t * y1 + 0)) + 0))
      with ((c * p + (d * r + 0)) * y0 + (c * q + (d * t + 0)) * y1) by ring.
    rewrite H10, H11. ring.
Qed.

Lemma dot_comm2 (a b : Vec 2) : dot a b = dot b a.
Proof.
  destruct a as [a0 [a1 []]], b as [b0 [b1 []]]. mat_unfold. ring.
Qed.

Lemma noise_form (l : Landmark) (z : Vec 2) : 0 <= dot z (measurement_noise l *v z).
Proof.
  destruct z as [z0 [z1 []]]. unfold measurement_noise, diag2. mat_unfold.
  pose proof (pow2_nonneg (Landmark.range l * DETECTION_RANGE_ALPHA)).
  pose proof (pow2_nonneg DETECTION_ANGLE_SIGMA).
  assert (0 <= z0 * z0) by nra. assert (0 <= z1 * z1) by nra. nra.
Qed.

(** With [z] the inverse of S applied to H Sigma u: the form of the fused
    covariance at [u] is the form of the covariance at the residual
    u - H^T z plus the form of the noise at z, and it is the form of the
    covariance at u less the form of S at z. *)
Lemma fusion_forms (l : Landmark) (Hm : Matrix 2 3) (Sigma : Matrix 3 3)
    (Sinv : Matrix 2 2) (u : Vec 3) :
  symmetric3 Sigma ->
  is_inverse2 (innovation_covariance Hm Sigma (measurement_noise l)) Sinv ->
  let S := innovation_covariance Hm Sigma (measurement_noise l) in
  let z := Sinv *v (Hm *v (Sigma *v u)) in
  let Sigma' := (identity 3 -m (Sigma *m transpose Hm *m Sinv) *m Hm) *m Sigma in
  dot u (Sigma' *v u)
  = dot (u -v transpose Hm *v z) (Sigma *v (u -v transpose Hm *v z))
    + dot z (measurement_noise l *v z) /\
  dot u (Sigma' *v u) = dot u (Sigma *v u) - dot z (S *v z).
Proof.
  intros Hsym Hinv S z Sigma'.
  pose proof (fusion_form_gain Hm Sigma Sinv u Hsym) as H1.
  pose proof (fusion_form_residual Hm Sigma (measurement_noise l) z u Hsym) as H3.
  pose proof (inverse2_applied _ _ (Hm *v (Sigma *v u)) Hinv) as H2.
  fold z in H1, H2. fold S in H2, H3. fold Sigma' in H1.
  rewrite H2 in H3 |- *.
  rewrite (dot_comm2 (Hm *v (Sigma *v u)) z) in H1.
  split; lra.
Qed.

Lemma innovation_covariance_ok (l : Landmark) (Hm : Matrix 2 3) (Sigma : Matrix 3 3) :
  covariance_ok Sigma ->
  symmetric2 (innovation_covariance Hm Sigma (measurement_noise l)) /\
  psd2 (innovation_covariance Hm Sigma (measurement_noise l)).
Proof.
  intros [Hsym Hpsd].
  destruct (psd_congruence Hm Sigma Hsym Hpsd) as [HsA HpA].
  unfold innovation_covariance.
  set (A := Hm *m Sigma *m transpose Hm) in *. clearbody A.
  split.
  - destruct A as [[a [b []]] [[b' [d []]] []]].
    unfold symmetric2 in *. unfold measurement_noise, diag2.
    mat_unfold_in HsA. mat_unfold. lra.
  - intros z. pose proof (HpA z) as Hz. pose proof (noise_form l z) as Hn.
    destruct A as [[a [b []]] [[b' [d []]] []]]. destruct z as [z0 [z1 []]].
    unfold measurement_noise, diag2 in *.
    mat_unfold_in Hz. mat_unfold_in Hn. mat_unfold. lra.
Qed.

Lemma inverse2_symmetric (S Sinv : Matrix 2 2) :
  symmetric2 S -> inverse2 S = Finite Sinv -> symmetric2 Sinv.
Proof.
  intros Hsym Hinv. unfold inverse2, fdiv in Hinv.
  destruct (Req_dec_T (det2 S) 0) as [Hz | Hz]; [discriminate |].
  cbn [bind] in Hinv. injection Hinv as <-.
  destruct S as [[a [b []]] [[c [d []]] []]].
  unfold symmetric2 in *. mat_unfold_in Hsym. mat_unfold. subst c. reflexivity.
Qed.

Lemma fusion_symmetric (Hm : Matrix 2 3) (Sigma : Matrix 3 3) (Sinv : Matrix 2 2) :
  symmetric3 Sigma -> symmetric2 Sinv ->
  symmetric3 ((identity 3 -m (Sigma *m transpose Hm *m Sinv) *m Hm) *m Sigma).
Proof.
  intros Hsym Hsi.
  destruct Hm as [[h00 [h01 [h02 []]]] [[h10 [h11 [h12 []]]] []]].
  destruct Sigma as [[a [b [c []]]] [[d [e [f []]]] [[g [h [i []]]] []]]].
  destruct Sinv as [[s00 [s01 []]] [[s10 [s11 []]] []]].
  unfold symmetric3, symmetric2 in *. mat_unfold_in Hsym. mat_unfold_in Hsi.
  injection Hsym as Hd Hg Hb Hh Hc Hf. subst d g h s01.
  mat_unfold. tuple_eq; ring.
Qed.

(** *** What a finite iteration has done *)

Section LoopFacts.

Variable lrb : Landmark -> R -> R -> R -> R * R.

Lemma correct_finite_cases (l : Landmark) (st st' : Locals) :
  Q_offdiag_zero st ->
  correct lrb l st = Finite st' ->
  st' = st \/
  (Rabs (Landmark.range l) > EPS /\
   fst (expected lrb l st) <> 0 /\
   exists Sinv,
     inverse2 (S_at lrb l st) = Finite Sinv /\
     is_inverse2 (S_at lrb l st) Sinv /\
     st' = mkLocals (fst (fusion lrb l (MU st) (COV st) Sinv))
                    (snd (fusion lrb l (MU st) (COV st) Sinv))
                    (measurement_jacobian l (MU st) (fst (expected lrb l st)))
                    (measurement_noise l)).
Proof.
  intros Hq Hc.
  destruct (Rgt_dec (Rabs (Landmark.range l)) EPS) as [Hr | Hr].
  - right. split; [exact Hr |].
    destruct (Req_dec_T (fst (expected lrb l st)) 0) as [Hz | Hz].
    + rewrite (correct_degenerate lrb l st Hr Hz) in Hc. discriminate.
    + split; [exact Hz |].
      rewrite (correct_inverts lrb l st Hr Hq Hz) in Hc.
      destruct (Req_dec_T (det2 (S_at lrb l st)) 0) as [Hd | Hd].
      * rewrite (inverse2_singular _ Hd) in Hc. discriminate.
      * destruct (inverse2_regular _ Hd) as [Sinv [Hinv His]].
        rewrite Hinv in Hc. cbn [bind] in Hc. injection Hc as <-.
        exists Sinv. repeat split; [exact Hinv | apply His | apply His].
  - left. rewrite correct_skip in Hc by lra. injection Hc as <-. reflexivity.
Qed.

Lemma fused_covariance (l : Landmark) (st : Locals) (Sinv : Matrix 2 2) :
  snd (fusion lrb l (MU st) (COV st) Sinv)
  = (identity 3
     -m (COV st *m transpose (measurement_jacobian l (MU st) (fst (expected lrb l st)))
         *m Sinv)
        *m measurement_jacobian l (MU st) (fst (expected lrb l st)))
    *m COV st.
Proof. reflexivity. Qed.

Lemma correct_keeps_covariance (l : Landmark) (st st' : Locals) :
  Q_offdiag_zero st -> covariance_ok (COV st) ->
  correct lrb l st = Finite st' ->
  covariance_ok (COV st').
Proof.
  intros Hq Hok Hc.
  destruct (correct_finite_cases l st st' Hq Hc)
    as [-> | [_ [_ [Sinv [Hinv [His ->]]]]]]; [exact Hok |].
  cbn [COV]. rewrite fused_covariance.
  destruct Hok as [Hsym Hpsd].
  set (Hm := measurement_jacobian l (MU st) (fst (expected lrb l st))) in *.
  destruct (innovation_covariance_ok l Hm (COV st) (conj Hsym Hpsd)) as [HsS _].
  split.
  - apply fusion_symmetric; [exact Hsym |].
    exact (inverse2_symmetric _ _ HsS Hinv).
  - intros u.
    destruct (fusion_forms l Hm (COV st) Sinv u Hsym His) as [Hform _].
    cbv zeta in Hform. rewrite Hform.
    pose proof (Hpsd (u -v transpose Hm
                           *v (Sinv *v (Hm *v (COV st *v u))))) as H1.
    pose proof (noise_form l (Sinv *v (Hm *v (COV st *v u)))) as H2.
    lra.
Qed.

Lemma correction_keeps_covariance (landmarks : list Landmark) :
  forall st st' : Locals,
    Q_offdiag_zero st -> covariance_ok (COV st) ->
    correction lrb landmarks st = Finite st' ->
    covariance_ok (COV st').
Proof.
  induction landmarks as [| l rest IH]; intros st st' Hq Hok Hc.
  - injection Hc as <-. exact Hok.
  - cbn [correction] in Hc.
    destruct (correct lrb l st) as [st1 |] eqn:H1; [| discriminate].
    cbn [bind] in Hc.
    exact (IH st1 st' (correct_keeps_Q lrb l st st1 Hq H1)
              (correct_keeps_covariance l st st1 Hq Hok H1) Hc).
Qed.

(** With a covariance as it should be, an iteration fails only on an
    expected range of 0. *)
Lemma correct_finite (l : Landmark) (st : Locals) :
  Q_offdiag_zero st -> covariance_ok (COV st) ->
  (Rabs (Landmark.range l) > EPS -> fst (expected lrb l st) <> 0) ->
  exists st', correct lrb l st = Finite st'.
Proof.
  intros Hq [Hsym Hpsd] Hz.
  destruct (Rgt_dec (Rabs (Landmark.range l)) EPS) as [Hr | Hr].
  - pose proof (S_regular_of_psd lrb l st Hsym Hpsd Hr) as Hd.
    destruct (correct_regular lrb l st Hr Hq (Hz Hr)) as [Sinv [_ Hc]]; [lra |].
    eexists. exact Hc.
  - exists st. apply correct_skip. lra.
Qed.

Lemma correction_finite (landmarks : list Landmark) :
  forall st : Locals,
    Q_offdiag_zero st -> covariance_ok (COV st) ->
    (forall l x0 y0 th, In l landmarks -> Rabs (Landmark.range l) > EPS ->
                        fst (lrb l x0 y0 th) <> 0) ->
    exists st', correction lrb landmarks st = Finite st'.
Proof.
  induction landmarks as [| l rest IH]; intros st Hq Hok Hz.
  - exists st. reflexivity.
  - destruct (correct_finite l st Hq Hok) as [st1 H1].
    { intros Hr. apply Hz; [left; reflexivity | exact Hr]. }
    destruct (IH st1 (correct_keeps_Q lrb l st st1 Hq H1)
                 (correct_keeps_covariance l st st1 Hq Hok H1)) as [st' Hc].
    { intros l' x0 y0 th Hin. apply Hz. right. exact Hin. }
    exists st'. cbn [correction]. rewrite H1. exact Hc.
Qed.

End LoopFacts.

Lemma update_covariance_ok (lrb : Landmark -> R -> R -> R -> R * R)
    (v w dt : R) (landmarks : list Landmark) (s : EKF_localization) :
  covariance_ok (m_cov s) ->
  (forall s', update lrb v w landmarks dt s = Finite s' -> covariance_ok (m_cov s')) /\
  ((forall l x0 y0 th, In l landmarks -> Rabs (Landmark.range l) > EPS ->
                       fst (lrb l x0 y0 th) <> 0) ->
   exists s', update lrb v w landmarks dt s = Finite s').
Proof.
  intros Hok.
  pose proof (predict_covariance_ok v w dt s Hok) as Hp.
  pose proof (predict_Q v w dt s) as Hq.
  split.
  - intros s' Hu. rewrite update_unfold in Hu.
    destruct (correction lrb landmarks (predict v w dt s)) as [st |] eqn:Hc;
      [| discriminate].
    cbn [bind] in Hu. injection Hu as <-. cbn [m_cov].
    exact (correction_keeps_covariance lrb landmarks _ st Hq Hp Hc).
  - intros Hz.
    destruct (correction_finite lrb landmarks _ Hq Hp Hz) as [st Hc].
    eexists. rewrite update_unfold, Hc. reflexivity.
Qed.

Lemma geometric_range_nonzero (l : Landmark) (x0 y0 th : R) :
  Landmark.x l - x0 <> 0 ->
  fst (Robot_landmark_range_bearing l x0 y0 th) <> 0.
Proof.
  intros Hdx. unfold Robot_landmark_range_bearing. cbn [fst].
  assert (Hsq : forall t : R, 0 <= t * t) by (intros t; nra).
  assert (Hpos : 0 < (Landmark.x l - x0) * (Landmark.x l - x0)).
  { destruct (Rtotal_order (Landmark.x l - x0) 0) as [H | [H | H]];
      [nra | contradiction | nra]. }
  pose proof (Hsq (Landmark.y l - y0)).
  apply Rgt_not_eq. apply sqrt_lt_R0. lra.
Qed.

(** A turn of one radian, then the landmark [ahead]: a call
    that fuses an observation into a covariance that is not zero. *)
Lemma turn_and_observe_finite :
  exists s', update Robot_landmark_range_bearing 0 1 [ahead] 1 origin = Finite s'.
Proof.
  assert (Hw : Rabs 1 > EPS) by (rewrite Rabs_R1; unfold EPS; lra).
  assert (Hmu : MU (predict 0 1 1 origin) = vec3 0 0 1).
  { rewrite (predict_arc 0 1 1 origin Hw). cbn [MU].
    cbv [origin m_mu arc_motion vec2 vec3 vget tget fst snd]. tuple_eq; field. }
  destruct (correct_finite Robot_landmark_range_bearing ahead (predict 0 1 1 origin))
    as [st' Hc].
  - apply predict_Q.
  - apply predict_covariance_ok. exact zero_covariance_ok.
  - intros _. unfold expected. rewrite Hmu.
    apply (geometric_range_nonzero ahead 0 0 1). cbn [ahead Landmark.x]. lra.
  - eexists. rewrite update_unfold. cbn [correction]. rewrite Hc. reflexivity.
Qed.



Lemma updates_covariance_ok (lrb : Landmark -> R -> R -> R -> R * R)
    (inputs : list Input) :
  forall s s', covariance_ok (m_cov s) ->
    updates lrb inputs s = Finite s' -> covariance_ok (m_cov s').
Proof.
  induction inputs as [| i rest IH]; intros s s' Hok Hs.
  - injection Hs as <-. exact Hok.
  - cbn [updates] in Hs.
    destruct (update lrb (in_v i) (in_w i) (in_landmarks i) (in_dt i) s)
      as [s1 |] eqn:H1; [| discriminate].
    cbn [bind] in Hs.
    exact (IH s1 s'
             (proj1 (update_covariance_ok lrb (in_v i) (in_w i) (in_dt i)
                       (in_landmarks i) s Hok) s1 H1) Hs).
Qed.

(** X11: the same over a run of calls from an initialized filter: after
    [init_ekf], whatever calls of [update] follow, a finite state has a
    symmetric positive semi-definite covariance. *)
Theorem updates_keep_covariance (lrb : Landmark -> R -> R -> R -> R * R)
    (inputs : list Input) (s0 s' : EKF_localization) :
  updates lrb inputs (init_ekf s0) = Finite s' -> covariance_ok (m_cov s').
Proof.
  apply updates_covariance_ok. exact zero_covariance_ok.
Qed.

Lemma updates_keep_covariance_witness :
  exists s',
    updates Robot_landmark_range_bearing
      [mkInput 0 1 [ahead] 1; mkInput 0 0 [] 1] (init_ekf origin) = Finite s' /\
    covariance_ok (m_cov s').
Proof.
  destruct turn_and_observe_finite as [s1 Hs1].
  assert (Hrun : updates Robot_landmark_range_bearing
                   [mkInput 0 1 [ahead] 1; mkInput 0 0 [] 1] (init_ekf origin)
                 = Finite (mkEKF (MU (predict 0 0 1 s1)) (COV (predict 0 0 1 s1)) 1)).
  { cbn [updates in_v in_w in_landmarks in_dt].
    change (init_ekf origin) with origin. rewrite Hs1. cbn [bind].
    rewrite update_nil. reflexivity. }
  eexists. split; [exact Hrun |].
  exact (updates_keep_covariance Robot_landmark_range_bearing _ origin _ Hrun).
Defined.

Lemma diagonal_as_form (A : Matrix 3 3) (i : nat) :
  (i < 3)%nat -> mget A i i = dot (basis3 i) (A *v basis3 i).
Proof.
  intros Hi.
  destruct A as [[a [b [c []]]] [[d [e [f []]]] [[g [h [k []]]] []]]].
  destruct i as [| [| [| i]]]; [| | | lia];
    unfold basis3; cbv [vec3]; mat_unfold; ring.
Qed.

Lemma trace_as_diagonal (A : Matrix 3 3) :
  trace A = mget A 0 0 + mget A 1 1 + mget A 2 2.
Proof.
  destruct A as [[a [b [c []]]] [[d [e [f []]]] [[g [h [k []]]] []]]].
  mat_unfold. ring.
Qed.

(** X12: no fusion increases a variance.  When the landmark loop runs on a
    symmetric positive semi-definite covariance, an iteration that ends
    finite leaves the variances of x, of y and of the heading at most as
    large as it found them, and hence the trace of the covariance. *)
Theorem correct_reduces_variances (lrb : Landmark -> R -> R -> R -> R * R)
    (v w dt : R) (s : EKF_localization) (pre : list Landmark) (l : Landmark)
    (st st' : Locals) :
  covariance_ok (m_cov s) ->
  correction lrb pre (predict v w dt s) = Finite st ->
  correct lrb l st = Finite st' ->
  (forall i, (i < 3)%nat -> mget (COV st') i i <= mget (COV st) i i) /\
  trace (COV st') <= trace (COV st).
Proof.
  intros Hok0 Hpre Hc.
  pose proof (reached_Q lrb v w dt pre s st Hpre) as Hq.
  pose proof (correction_keeps_covariance lrb pre _ st (predict_Q v w dt s)
                (predict_covariance_ok v w dt s Hok0) Hpre) as Hok.
  assert (Hdiag : forall i, (i < 3)%nat -> mget (COV st') i i <= mget (COV st) i i).
  { intros i Hi.
    destruct (correct_finite_cases lrb l st st' Hq Hc)
      as [-> | [_ [_ [Sinv [Hinv [His ->]]]]]]; [lra |].
    cbn [COV]. rewrite fused_covariance.
    set (Hm := measurement_jacobian l (MU st) (fst (expected lrb l st))) in *.
    rewrite !(diagonal_as_form _ i Hi).
    destruct Hok as [Hsym Hpsd].
    destruct (fusion_forms l Hm (COV st) Sinv (basis3 i) Hsym His) as [_ Hform].
    cbv zeta in Hform. rewrite Hform.
    destruct (innovation_covariance_ok l Hm (COV st) (conj Hsym Hpsd)) as [_ HpS].
    pose proof (HpS (Sinv *v (Hm *v (COV st *v basis3 i)))) as Hz.
    lra. }
  split; [exact Hdiag |].
  rewrite !trace_as_diagonal.
  pose proof (Hdiag 0%nat ltac:(lia)). pose proof (Hdiag 1%nat ltac:(lia)).
  pose proof (Hdiag 2%nat ltac:(lia)). lra.
Qed.

Lemma predict_rest (dt : R) (s : EKF_localization) :
  predict 0 0 dt s = mkLocals (m_mu s) (m_cov s) (zero 2 3) (zero 2 2).
Proof.
  rewrite predict_line by (rewrite Rabs_R0; pose proof EPS_pos; lra).
  destruct s as [[px [py [th []]]]
                 [[a [b [c []]]] [[d [e [f []]]] [[g [h [i []]]] []]]] d0].
  unfold propagate, motion_noise, line_motion, line_G, line_V, diag2, yaw, pow2.
  cbn [MU COV m_mu m_cov]. rewrite Rabs_R0. mat_unfold. cbv [vec2 vec3].
  f_equal; tuple_eq; ring.
Qed.

Lemma correct_reduces_variances_witness :
  covariance_ok (m_cov origin) /\
  exists st',
    correct Robot_landmark_range_bearing ahead at_origin = Finite st' /\
    trace (COV st') <= trace (COV at_origin).
Proof.
  assert (Hok : covariance_ok (m_cov origin)) by exact zero_covariance_ok.
  assert (Hpre : correction Robot_landmark_range_bearing [] (predict 0 0 1 origin)
                 = Finite at_origin).
  { rewrite predict_rest. reflexivity. }
  split; [exact Hok |].
  destruct (correct_finite Robot_landmark_range_bearing ahead at_origin)
    as [st' Hc].
  - split; reflexivity.
  - exact zero_covariance_ok.
  - intros _. unfold at_origin.
    rewrite (expected_ahead ahead _ _ _ eq_refl eq_refl). cbn [fst]. lra.
  - exists st'. split; [exact Hc |].
    exact (proj2 (correct_reduces_variances Robot_landmark_range_bearing 0 0 1
                    origin [] ahead at_origin st' Hok Hpre Hc)).
Defined.

Lemma fusion_zero_covariance (lrb : Landmark -> R -> R -> R -> R * R)
    (l : Landmark) (mu : Vec 3) (Sinv : Matrix 2 2) :
  fusion lrb l mu (zero 3 3) Sinv = (wrap_heading mu, zero 3 3).
Proof.
  unfold fusion, kalman_gain, wrap_heading.
  set (zh := lrb l (vget mu 0) (vget mu 1) (vget mu 2)).
  set (Hm := measurement_jacobian l mu (fst zh)).
  destruct Hm as [[h00 [h01 [h02 []]]] [[h10 [h11 [h12 []]]] []]].
  destruct mu as [px [py [th []]]].
  destruct Sinv as [[s00 [s01 []]] [[s10 [s11 []]] []]].
  mat_unfold. cbv [vec2]. tuple_eq; try ring.
  f_equal. ring.
Qed.

(** X13: a filter without uncertainty does not listen: with the covariance
    at zero (as [init_ekf] leaves it) and the robot at rest, an observation
    that is fused changes neither the position nor the covariance, whatever
    it says; only the heading is passed through [constrain_angle]. *)
Theorem update_certain_ignores_observation
    (lrb : Landmark -> R -> R -> R -> R * R) (dt : R) (l : Landmark)
    (s : EKF_localization) :
  Rabs (Landmark.range l) > EPS ->
  fst (lrb l (vget (m_mu s) 0) (vget (m_mu s) 1) (vget (m_mu s) 2)) <> 0 ->
  update lrb 0 0 [l] dt (init_ekf s)
  = Finite (mkEKF (wrap_heading (m_mu s)) (zero 3 3) dt).
Proof.
  intros Hr Hz.
  rewrite update_unfold, predict_rest. cbn [init_ekf m_mu m_cov correction].
  set (st := mkLocals (m_mu s) (zero 3 3) (zero 2 3) (zero 2 2)).
  assert (Hq : Q_offdiag_zero st) by (split; reflexivity).
  assert (Hd : det2 (S_at lrb l st) <> 0).
  { pose proof (S_regular_of_psd lrb l st (proj1 zero_covariance_ok)
                  (proj2 zero_covariance_ok) Hr). lra. }
  destruct (correct_regular lrb l st Hr Hq Hz Hd) as [Sinv [_ Hc]].
  rewrite Hc. cbn [bind MU COV st].
  rewrite fusion_zero_covariance. reflexivity.
Qed.

Lemma update_certain_ignores_observation_witness :
  Rabs (Landmark.range ahead) > EPS /\
  update Robot_landmark_range_bearing 0 0 [ahead] 1 (init_ekf origin)
  = Finite (mkEKF (wrap_heading (m_mu origin)) (zero 3 3) 1).
Proof.
  assert (Hr : Rabs (Landmark.range ahead) > EPS).
  { cbn [ahead Landmark.range]. rewrite Rabs_R1. unfold EPS. lra. }
  split; [exact Hr |].
  apply (update_certain_ignores_observation Robot_landmark_range_bearing 1 ahead
           origin Hr).
  pose proof (expected_ahead ahead (zero 3 3) (zero 2 3) (zero 2 2) eq_refl eq_refl)
    as He.
  unfold expected in He. cbn [MU] in He.
  unfold origin. cbn [m_mu]. rewrite He. cbn [fst]. lra.
Defined.

(** X14: an observation that is exactly the expected one leaves the mean
    where it is: when the observed range and bearing equal the expected
    ones, the fusion returns the mean it found, its heading passed through
    [constrain_angle]. *)
Theorem exact_observation_keeps_mean (lrb : Landmark -> R -> R -> R -> R * R)
    (v w dt : R) (s : EKF_localization) (pre : list Landmark) (l : Landmark)
    (st : Locals) :
  correction lrb pre (predict v w dt s) = Finite st ->
  Rabs (Landmark.range l) > EPS ->
  expected lrb l st = (Landmark.range l, Landmark.bearing l) ->
  det2 (S_at lrb l st) <> 0 ->
  exists st', correct lrb l st = Finite st' /\ MU st' = wrap_heading (MU st).
Proof.
  intros Hpre Hr He Hd.
  pose proof (reached_Q lrb v w dt pre s st Hpre) as Hq.
  assert (Hz : fst (expected lrb l st) <> 0).
  { rewrite He. cbn [fst]. intros Hz0. rewrite Hz0, Rabs_R0 in Hr.
    pose proof EPS_pos. lra. }
  destruct (correct_regular lrb l st Hr Hq Hz Hd) as [Sinv [_ Hc]].
  eexists. split; [exact Hc |].
  cbn [MU]. unfold fusion. unfold expected in He. rewrite He. cbn [fst snd].
  set (K := kalman_gain _ _ _).
  destruct K as [[k00 [k01 []]] [[k10 [k11 []]] [[k20 [k21 []]] []]]].
  destruct (MU st) as [px [py [th []]]].
  unfold wrap_heading. mat_unfold. cbv [vec2]. tuple_eq; try ring.
  f_equal. ring.
Qed.

Lemma exact_observation_keeps_mean_witness :
  Rabs (Landmark.range ahead) > EPS /\
  expected Robot_landmark_range_bearing ahead at_origin
  = (Landmark.range ahead, Landmark.bearing ahead) /\
  exists st', correct Robot_landmark_range_bearing ahead at_origin = Finite st' /\
              MU st' = wrap_heading (MU at_origin).
Proof.
  assert (Hpre : correction Robot_landmark_range_bearing [] (predict 0 0 1 origin)
                 = Finite at_origin).
  { rewrite predict_rest. reflexivity. }
  assert (Hr : Rabs (Landmark.range ahead) > EPS).
  { cbn [ahead Landmark.range]. rewrite Rabs_R1. unfold EPS. lra. }
  assert (He : expected Robot_landmark_range_bearing ahead at_origin
               = (Landmark.range ahead, Landmark.bearing ahead)).
  { unfold at_origin. rewrite (expected_ahead ahead _ _ _ eq_refl eq_refl).
    reflexivity. }
  assert (Hd : det2 (S_at Robot_landmark_range_bearing ahead at_origin) <> 0).
  { pose proof (S_regular_of_psd Robot_landmark_range_bearing ahead at_origin
                  (proj1 zero_covariance_ok) (proj2 zero_covariance_ok) Hr). lra. }
  split; [exact Hr | split; [exact He |]].
  exact (exact_observation_keeps_mean Robot_landmark_range_bearing 0 0 1 origin []
           ahead at_origin Hpre Hr He Hd).
Defined.

(** ** ellipse and pose_ellipse *)

Lemma eigenvalue_sum_product (X : Matrix 2 2) :
  symmetric2 X ->
  eigenvalue_min X + eigenvalue_max X = mget X 0 0 + mget X 1 1 /\
  eigenvalue_min X * eigenvalue_max X = det2 X.
Proof.
  intros Hsym.
  pose proof (eigen_radius_square X) as Hrr.
  unfold eigenvalue_min, eigenvalue_max, det2.
  destruct X as [[a [b' []]] [[b [d []]] []]].
  unfold symmetric2 in Hsym. mat_unfold_in Hsym. subst b'.
  set (rho := eigen_radius _) in *.
  unfold pow2 in Hrr. cbv [mget tget tinit fst snd] in Hrr.
  cbv [mget tget tinit fst snd].
  split; [field |].
  transitivity ((a + d) / 2 * ((a + d) / 2) - rho * rho); [ring |].
  rewrite Hrr. field.
Qed.

(** X15: [ellipse] orders the axes itself: whatever the order in which the
    solver gives two eigenvalues that are not negative, the major axis is
    the square root of the larger one and the minor axis that of the
    smaller one, and the angle is read from the column of the larger one
    (from the second column when they are equal). *)
Theorem ellipse_orders_axes (solve : Matrix 2 2 -> SelfAdjointEigenSolver)
    (X : Matrix 2 2) :
  let l0 := vget (eigenvalues (solve X)) 0 in
  let l1 := vget (eigenvalues (solve X)) 1 in
  let V := eigenvectors (solve X) in
  0 <= l0 -> 0 <= l1 ->
  exists major minor theta : R,
    ellipse solve X = Finite (major, minor, theta) /\
    major = sqrt (Rmax l0 l1) /\
    minor = sqrt (Rmin l0 l1) /\
    minor <= major /\
    (l1 < l0 -> theta = atan2 (mget V 1 0) (mget V 0 0)) /\
    (l0 <= l1 -> theta = atan2 (mget V 1 1) (mget V 0 1)).
Proof.
  intros l0 l1 V H0 H1.
  unfold ellipse. cbv zeta. fold l0 l1 V.
  rewrite (fsqrt_nonneg _ H0), (fsqrt_nonneg _ H1). cbn [bind].
  destruct (Rgt_dec (sqrt l0) (sqrt l1)) as [Hgt | Hle].
  - assert (Hlt : l1 < l0) by (apply sqrt_lt_0_alt; exact Hgt).
    do 3 eexists. split; [reflexivity |].
    rewrite Rmax_left, Rmin_right by lra.
    repeat split; [lra | intros; lra].
  - assert (Hlt : l0 <= l1).
    { destruct (Rle_lt_dec l0 l1) as [H | H]; [exact H |].
      exfalso. apply Hle. apply sqrt_lt_1_alt. lra. }
    do 3 eexists. split; [reflexivity |].
    rewrite Rmax_right, Rmin_left by lra.
    repeat split; [apply sqrt_le_1_alt; exact Hlt | intros; lra].
Qed.

Lemma ellipse_orders_axes_witness :
  0 <= 4 /\ 0 <= 1 /\
  exists major minor theta : R,
    ellipse decreasing_solver (diag2 4 1) = Finite (major, minor, theta) /\
    major = sqrt (Rmax 4 1) /\ minor = sqrt (Rmin 4 1).
Proof.
  assert (H4 : 0 <= 4) by lra. assert (H1 : 0 <= 1) by lra.
  split; [exact H4 | split; [exact H1 |]].
  destruct (ellipse_orders_axes decreasing_solver (diag2 4 1) H4 H1)
    as [major [minor [theta [He [Hmaj [Hmin _]]]]]].
  exists major, minor, theta. repeat split; assumption.
Defined.

(** [ellipse] is [ellipse_components] with the three results put together. *)
Lemma ellipse_all_finite (solve : Matrix 2 2 -> SelfAdjointEigenSolver)
    (X : Matrix 2 2) :
  ellipse solve X = all_finite (ellipse_components solve X).
Proof.
  unfold ellipse, ellipse_components. cbv zeta.
  destruct (fsqrt (vget (eigenvalues (solve X)) 0)) as [e0 |];
    destruct (fsqrt (vget (eigenvalues (solve X)) 1)) as [e1 |];
    cbn [bind fgt all_finite]; try reflexivity.
  destruct (Rgt_dec e0 e1); reflexivity.
Qed.

(** X16: a matrix that is not positive semi-definite has half an ellipse:
    for a symmetric matrix of negative determinant the smaller eigenvalue
    is negative and its square root is not a number; the comparison with it
    is false, so that [ellipse] returns the square root of the larger
    eigenvalue as major axis, the angle of its eigenvector, and a minor
    axis that is not a number. *)
Theorem ellipse_of_indefinite (solve : Matrix 2 2 -> SelfAdjointEigenSolver)
    (X : Matrix 2 2) :
  symmetric2 X ->
  eigen_decomposition X (solve X) ->
  det2 X < 0 ->
  eigenvalue_min X < 0 < eigenvalue_max X /\
  ellipse_components solve X =
  (Finite (sqrt (eigenvalue_max X)), NonFinite,
   atan2 (mget (eigenvectors (solve X)) 1 1) (mget (eigenvectors (solve X)) 0 1)).
Proof.
  intros Hsym Hdec Hdet.
  destruct (eigen_decomposition_values X _ Hsym Hdec) as [Hmin Hmax].
  destruct (eigenvalue_sum_product X Hsym) as [_ Hprod].
  destruct (closed_form_eigenvalues X Hsym) as [_ [_ Hle]].
  assert (Hneg : eigenvalue_min X < 0) by nra.
  assert (Hpos : 0 < eigenvalue_max X) by nra.
  assert (Hc : ellipse_components solve X =
               (Finite (sqrt (eigenvalue_max X)), NonFinite,
                atan2 (mget (eigenvectors (solve X)) 1 1)
                      (mget (eigenvectors (solve X)) 0 1))).
  { unfold ellipse_components. cbv zeta. rewrite Hmin, Hmax. unfold fsqrt.
    destruct (Rlt_dec (eigenvalue_min X) 0) as [_ | Hn]; [| contradiction].
    destruct (Rlt_dec (eigenvalue_max X) 0) as [Hn | _]; [lra |].
    reflexivity. }
  split; [split; assumption | exact Hc].
Qed.

Lemma ellipse_of_indefinite_witness :
  symmetric2 indefinite2 /\ det2 indefinite2 < 0 /\
  ellipse_components closed_form_solver indefinite2 =
  (Finite (sqrt (eigenvalue_max indefinite2)), NonFinite,
   atan2 (mget (eigenvectors (closed_form_solver indefinite2)) 1 1)
         (mget (eigenvectors (closed_form_solver indefinite2)) 0 1)).
Proof.
  assert (Hs : symmetric2 indefinite2) by reflexivity.
  assert (Hd : det2 indefinite2 < 0).
  { unfold det2, indefinite2, diag2. cbv [mget tget tinit fst snd]. lra. }
  split; [exact Hs | split; [exact Hd |]].
  exact (proj2 (ellipse_of_indefinite closed_form_solver indefinite2 Hs
                  (closed_form_decomposition indefinite2 Hs) Hd)).
Defined.

(** X17: the axes carry the trace and the determinant: for a symmetric
    positive semi-definite matrix the squares of the two semi-axes add up
    to the trace, and the square of their product is the determinant. *)
Theorem ellipse_trace_determinant (solve : Matrix 2 2 -> SelfAdjointEigenSolver)
    (X : Matrix 2 2) :
  symmetric2 X ->
  psd2 X ->
  eigen_decomposition X (solve X) ->
  exists major minor theta : R,
    ellipse solve X = Finite (major, minor, theta) /\
    major * major + minor * minor = mget X 0 0 + mget X 1 1 /\
    major * minor * (major * minor) = det2 X.
Proof.
  intros Hsym Hpsd Hdec.
  destruct (eigen_decomposition_values X _ Hsym Hdec) as [Hmin Hmax].
  destruct (eigenvalue_sum_product X Hsym) as [Hsum Hprod].
  pose proof Hdec as [_ [Hv0 [Hv1 _]]].
  pose proof (psd2_eigenvalue X _ _ Hpsd Hv0) as H0.
  pose proof (psd2_eigenvalue X _ _ Hpsd Hv1) as H1.
  rewrite Hmin in H0. rewrite Hmax in H1.
  do 3 eexists.
  split; [apply (ellipse_of_decomposition solve X Hpsd Hdec) |].
  rewrite Hmin, Hmax.
  pose proof (sqrt_sqrt _ H0) as Hs0. pose proof (sqrt_sqrt _ H1) as Hs1.
  split.
  - rewrite Hs0, Hs1. lra.
  - replace (sqrt (eigenvalue_max X) * sqrt (eigenvalue_min X)
             * (sqrt (eigenvalue_max X) * sqrt (eigenvalue_min X)))
      with (sqrt (eigenvalue_min X) * sqrt (eigenvalue_min X)
            * (sqrt (eigenvalue_max X) * sqrt (eigenvalue_max X))) by ring.
    rewrite Hs0, Hs1. exact Hprod.
Qed.

Lemma ellipse_trace_determinant_witness :
  symmetric2 (diag2 4 1) /\ psd2 (diag2 4 1) /\
  exists major minor theta : R,
    ellipse closed_form_solver (diag2 4 1) = Finite (major, minor, theta) /\
    major * minor * (major * minor) = det2 (diag2 4 1).
Proof.
  assert (Hs : symmetric2 (diag2 4 1)) by reflexivity.
  assert (Hp : psd2 (diag2 4 1)) by (apply psd2_diag2; lra).
  split; [exact Hs | split; [exact Hp |]].
  destruct (ellipse_trace_determinant closed_form_solver (diag2 4 1) Hs Hp
              (closed_form_decomposition _ Hs))
    as [major [minor [theta [He [_ Hd]]]]].
  exists major, minor, theta. split; assumption.
Defined.

(** X18: an initialized filter has an ellipse of no extent: after
    [init_ekf], whatever the state was, [pose_ellipse] returns the axes 0
    and 0. *)
Theorem pose_ellipse_after_init (solve : Matrix 2 2 -> SelfAdjointEigenSolver)
    (s : EKF_localization) :
  (forall Y, symmetric2 Y -> eigen_decomposition Y (solve Y)) ->
  exists theta : R, pose_ellipse solve (init_ekf s) = Finite (0, 0, theta).
Proof.
  intros Hsolve.
  assert (Hs : symmetric2 (zero 2 2)) by reflexivity.
  assert (Hp : psd2 (zero 2 2)).
  { intros [p [q []]]. mat_unfold. lra. }
  pose proof (Hsolve _ Hs) as Hdec.
  destruct (eigen_decomposition_values _ _ Hs Hdec) as [Hmin Hmax].
  assert (Hr : eigen_radius (zero 2 2) = 0).
  { unfold eigen_radius, pow2. cbv [zero mget tget tinit fst snd].
    replace ((0 - 0) / 2 * ((0 - 0) / 2) + 0 * 0) with 0 by field.
    exact sqrt_0. }
  assert (Hmin0 : eigenvalue_min (zero 2 2) = 0).
  { unfold eigenvalue_min. rewrite Hr. cbv [zero mget tget tinit fst snd]. field. }
  assert (Hmax0 : eigenvalue_max (zero 2 2) = 0).
  { unfold eigenvalue_max. rewrite Hr. cbv [zero mget tget tinit fst snd]. field. }
  eexists. unfold pose_ellipse.
  change (block_0_0_2_2 (m_cov (init_ekf s))) with (zero 2 2).
  rewrite (ellipse_of_decomposition solve _ Hp Hdec), Hmin, Hmax, Hmin0, Hmax0, sqrt_0.
  reflexivity.
Qed.

Lemma pose_ellipse_after_init_witness :
  exists theta : R,
    pose_ellipse closed_form_solver (init_ekf heading_3) = Finite (0, 0, theta).
Proof.
  exact (pose_ellipse_after_init closed_form_solver heading_3
           closed_form_decomposition).
Defined.

(** ** Composition *)

(** X19: dead reckoning composes: two calls of [update] without landmark,
    under the same v and w, for dt1 and then dt2, store the mean that one
    call for dt1 + dt2 stores, in both branches of the prediction.  (The
    covariance does not compose in this way.) *)
Theorem update_mean_composes (lrb : Landmark -> R -> R -> R -> R * R)
    (v w dt1 dt2 : R) (s : EKF_localization) :
  exists s1 s2 s12,
    update lrb v w [] dt1 s = Finite s1 /\
    update lrb v w [] dt2 s1 = Finite s2 /\
    update lrb v w [] (dt1 + dt2) s = Finite s12 /\
    m_mu s2 = m_mu s12.
Proof.
  do 3 eexists.
  split; [apply update_nil |]. split; [apply update_nil |].
  split; [apply update_nil |]. cbn [m_mu].
  destruct s as [[px [py [th []]]] Sigma d0].
  destruct (Rgt_dec (Rabs w) EPS) as [Hw | Hw].
  - pose proof (above_EPS_nonzero w Hw) as Hw0.
    rewrite !(predict_arc v w _ _ Hw). cbn [MU m_mu].
    cbv [arc_motion vec2 vec3 vget tget fst snd].
    replace (th + w * dt1 + w * dt2) with (th + w * (dt1 + dt2)) by ring.
    tuple_eq; ring.
  - rewrite !(predict_line v w _ _) by lra. cbn [MU m_mu].
    cbv [line_motion vec2 vec3 vget tget fst snd].
    tuple_eq; ring.
Qed.

(** ** An estimate on a landmark *)

(** X20: fusing a landmark whose expected range is 0, as it is when the
    estimated position is the position of the landmark, divides by zero in
    the entries of H: the iteration leaves the finite numbers, and so does
    what [update] stores, whatever landmarks come after it. *)
Theorem correct_on_landmark (lrb : Landmark -> R -> R -> R -> R * R)
    (v w dt : R) (s : EKF_localization) (pre post : list Landmark)
    (l : Landmark) (st : Locals) :
  correction lrb pre (predict v w dt s) = Finite st ->
  Rabs (Landmark.range l) > EPS ->
  fst (expected lrb l st) = 0 ->
  correct lrb l st = NonFinite /\
  update lrb v w (pre ++ l :: post) dt s = NonFinite.
Proof.
  intros Hpre Hr Hz.
  pose proof (correct_degenerate lrb l st Hr Hz) as Hc.
  split; [exact Hc |].
  rewrite (update_reaches lrb v w dt pre post l s st Hpre), Hc. reflexivity.
Qed.

Lemma correct_on_landmark_witness :
  Rabs (Landmark.range ahead) > EPS /\
  fst (expected Robot_landmark_range_bearing ahead (predict 0 0 1 on_landmark)) = 0 /\
  update Robot_landmark_range_bearing 0 0 ([] ++ ahead :: [ahead_range_0]) 1
    on_landmark = NonFinite.
Proof.
  assert (Hr : Rabs (Landmark.range ahead) > EPS).
  { cbn [ahead Landmark.range]. rewrite Rabs_R1. unfold EPS. lra. }
  assert (Hz : fst (expected Robot_landmark_range_bearing ahead
                      (predict 0 0 1 on_landmark)) = 0).
  { rewrite predict_rest.
    unfold expected, Robot_landmark_range_bearing.
    cbv [MU on_landmark set_state init_ekf origin m_mu ahead Landmark.x Landmark.y
         vec3 vget vset tget tset fst snd].
    replace ((1 - 1) * (1 - 1) + (0 - 0) * (0 - 0)) with 0 by ring.
    exact sqrt_0. }
  split; [exact Hr | split; [exact Hz |]].
  exact (proj2 (correct_on_landmark Robot_landmark_range_bearing 0 0 1 on_landmark
                  [] [ahead_range_0] ahead (predict 0 0 1 on_landmark)
                  eq_refl Hr Hz)).
Defined.

(** X21: nothing of [H] and [Q] passes from one iteration to the next: in
    the landmark loop, an iteration on two states with the same mean and
    the same covariance gives the same result, whatever [H] and [Q] the
    iterations before have left. *)
Theorem correct_forgets_H_Q (lrb : Landmark -> R -> R -> R -> R * R)
    (l : Landmark) (st1 st2 : Locals) :
  Q_offdiag_zero st1 -> Q_offdiag_zero st2 ->
  MU st1 = MU st2 -> COV st1 = COV st2 ->
  Rabs (Landmark.range l) > EPS ->
  correct lrb l st1 = correct lrb l st2.
Proof.
  intros Hq1 Hq2 Hmu Hcov Hr.
  assert (He : expected lrb l st1 = expected lrb l st2)
    by (unfold expected; rewrite Hmu; reflexivity).
  assert (HS : S_at lrb l st1 = S_at lrb l st2)
    by (unfold S_at; rewrite He, Hmu, Hcov; reflexivity).
  destruct (Req_dec_T (fst (expected lrb l st1)) 0) as [Hz | Hz].
  - rewrite (correct_degenerate lrb l st1 Hr Hz).
    rewrite He in Hz. rewrite (correct_degenerate lrb l st2 Hr Hz). reflexivity.
  - rewrite (correct_inverts lrb l st1 Hr Hq1 Hz).
    rewrite He in Hz. rewrite (correct_inverts lrb l st2 Hr Hq2 Hz).
    rewrite HS, Hmu, Hcov, He. reflexivity.
Qed.

Lemma correct_forgets_H_Q_witness :
  Rabs (Landmark.range ahead) > EPS /\
  correct Robot_landmark_range_bearing ahead at_origin
  = correct Robot_landmark_range_bearing ahead
      (mkLocals (vec3 0 0 0) (zero 3 3) (measurement_jacobian ahead (vec3 0 0 0) 1)
                (measurement_noise ahead)).
Proof.
  assert (Hr : Rabs (Landmark.range ahead) > EPS).
  { cbn [ahead Landmark.range]. rewrite Rabs_R1. unfold EPS. lra. }
  split; [exact Hr |].
  apply correct_forgets_H_Q; try reflexivity; try exact Hr; split; reflexivity.
Defined.

(** X22: a covariance as it should be has an ellipse: for a symmetric
    positive semi-definite covariance, as [update] keeps it, [pose_ellipse]
    returns finite axes, 0 <= minor <= major, whose squares add up to the
    variance of x plus the variance of y. *)
Theorem pose_ellipse_defined (solve : Matrix 2 2 -> SelfAdjointEigenSolver)
    (s : EKF_localization) :
  (forall Y, symmetric2 Y -> eigen_decomposition Y (solve Y)) ->
  covariance_ok (m_cov s) ->
  exists major minor theta : R,
    pose_ellipse solve s = Finite (major, minor, theta) /\
    0 <= minor <= major /\
    major * major + minor * minor = mget (m_cov s) 0 0 + mget (m_cov s) 1 1.
Proof.
  intros Hsolve [Hsym Hpsd].
  set (X := block_0_0_2_2 (m_cov s)).
  assert (HsX : symmetric2 X).
  { unfold X, block_0_0_2_2, symmetric2.
    destruct (m_cov s) as [[a [b [c []]]] [[d [e [f []]]] [[g [h [i []]]] []]]].
    unfold symmetric3 in Hsym. mat_unfold_in Hsym.
    injection Hsym as Hd Hg Hb Hh Hc Hf. mat_unfold. congruence. }
  assert (HpX : psd2 X).
  { intros [p [q []]]. pose proof (Hpsd (vec3 p q 0)) as Hq.
    unfold X, block_0_0_2_2.
    destruct (m_cov s) as [[a [b [c []]]] [[d [e [f []]]] [[g [h [i []]]] []]]].
    cbv [vec3] in Hq. mat_unfold_in Hq. mat_unfold.
    eapply Rle_trans; [exact Hq |]. right. ring. }
  pose proof (Hsolve X HsX) as Hdec.
  destruct (eigen_decomposition_values X _ HsX Hdec) as [Hmin Hmax].
  destruct (eigenvalue_sum_product X HsX) as [Hsum _].
  destruct (closed_form_eigenvalues X HsX) as [_ [_ Hle]].
  pose proof Hdec as [_ [Hv0 [Hv1 _]]].
  pose proof (psd2_eigenvalue X _ _ HpX Hv0) as H0.
  pose proof (psd2_eigenvalue X _ _ HpX Hv1) as H1.
  rewrite Hmin in H0. rewrite Hmax in H1.
  do 3 eexists. unfold pose_ellipse. fold X.
  split; [apply (ellipse_of_decomposition solve X HpX Hdec) |].
  rewrite Hmin, Hmax.
  split; [split; [apply sqrt_pos | apply sqrt_le_1_alt; exact Hle] |].
  rewrite (sqrt_sqrt _ H0), (sqrt_sqrt _ H1).
  replace (mget (m_cov s) 0 0 + mget (m_cov s) 1 1) with (mget X 0 0 + mget X 1 1)
    by reflexivity.
  lra.
Qed.

Lemma pose_ellipse_defined_witness :
  covariance_ok (m_cov origin) /\
  exists major minor theta : R,
    pose_ellipse closed_form_solver origin = Finite (major, minor, theta) /\
    0 <= minor <= major.
Proof.
  assert (Hok : covariance_ok (m_cov origin)) by exact zero_covariance_ok.
  split; [exact Hok |].
  destruct (pose_ellipse_defined closed_form_solver origin
              closed_form_decomposition Hok)
    as [major [minor [theta [He [Hb _]]]]].
  exists major, minor, theta. split; assumption.
Defined.
